(** * pymaker.oasis: order repository and position estimator

    A shallow embedding of [src/pymaker/oasis.py]: the [Order] value class,
    the [SimpleMarket] client with its per-instance cache of absent order
    ids, and the [MatchingMarket] command builder with its insertion
    position search.  The remote contract is an external collaborator: it
    is modelled as a ledger whose content may differ at every remote call,
    and every remote call is recorded so that statements about "no remote
    query" can be made.  A remote call always answers: failures of the
    transport are not part of the model. *)

From Stdlib Require Import ZArith Lia.
From stdpp Require Import base gmap sets list strings sorting.

Local Open Scope Z_scope.

(** ** Exceptions

    Python code either returns or raises.  [AssertionError] is what the
    [assert(...)] statements of the module raise; [ArithmeticError] is the
    class of the error of a fixed-point division by zero. *)

Inductive exn : Type :=
  | AssertionError
  | ArithmeticError.

Inductive result (A : Type) : Type :=
  | Ok (a : A)
  | Raise (e : exn).
Arguments Ok {A} a.
Arguments Raise {A} e.

Global Instance exn_eq_dec : EqDecision exn.
Proof. solve_decision. Defined.

Global Instance result_eq_dec {A} `{EqDecision A} : EqDecision (result A).
Proof. solve_decision. Defined.

Definition result_bind {A B} (r : result A) (f : A -> result B) : result B :=
  match r with
  | Ok a => f a
  | Raise e => Raise e
  end.

(** ** Values the module imports *)

(** Modelled from the spec: [pymaker.Address] is not part of [src/].  An
    address wraps its textual form; two addresses are equal when the texts
    are. *)
Record Address : Type := mkAddress { address_of : string }.

Definition Address_eq (a b : Address) : bool :=
  bool_decide (address_of a = address_of b).

(** Modelled from the spec: [pymaker.numeric.Wad] is not part of [src/].
    The spec calls it a fixed-point quantity whose values are equal iff
    their raw integers are, and whose quotient is a fixed-point division.
    A [Wad] holds the raw integer at eighteen decimals; product and
    quotient rescale and drop the fraction; a zero divisor is an error. *)
Record Wad : Type := mkWad { value : Z }.

Definition WAD : Z := 1000000000000000000.

Definition Wad_mul (a b : Wad) : Wad :=
  mkWad (Z.quot (value a * value b) WAD).

Definition Wad_truediv (a b : Wad) : result Wad :=
  if value b =? 0 then Raise ArithmeticError
  else Ok (mkWad (Z.quot (value a * WAD) (value b))).

Definition Wad_lt (a b : Wad) : bool := value a <? value b.
Definition Wad_gt (a b : Wad) : bool := value b <? value a.
Definition Wad_ge (a b : Wad) : bool := value b <=? value a.
Definition Wad_eq (a b : Wad) : bool := value a =? value b.

(** ** class Order *)

(** [market] stands for [self._market.address], the only part of the
    market object an order ever reads. *)
Record Order : Type := mkOrder {
  market : Address;
  order_id : Z;
  maker : Address;
  pay_token : Address;
  pay_amount : Wad;
  buy_token : Address;
  buy_amount : Wad;
  timestamp : Z
}.

Definition sell_to_buy_price (o : Order) : result Wad :=
  Wad_truediv (pay_amount o) (buy_amount o).

Definition buy_to_sell_price (o : Order) : result Wad :=
  Wad_truediv (buy_amount o) (pay_amount o).

Definition remaining_sell_amount (o : Order) : Wad := pay_amount o.

(** [Order.__eq__] *)
Definition Order_eq (o other : Order) : bool :=
  Address_eq (market o) (market other) && (order_id o =? order_id other).

(** [Order.__hash__] *)
Definition Order_hash (o : Order) : Z := order_id o.

(** ** The remote ledger *)

(** The tuple returned by the contract's [offers(id)]; the fields are in
    the order of the tuple, [array[0]] to [array[6]]. *)
Record Offer : Type := mkOffer {
  pay_amt : Z;
  pay_gem : string;
  buy_amt : Z;
  buy_gem : string;
  owner : string;
  active : bool;
  offer_timestamp : Z
}.

Record Ledger : Type := mkLedger {
  last_offer_id : Z;
  offers : Z -> Offer;
  buyEnabled : bool;
  matchingEnabled : bool
}.

(** One entry per [self._contract.call()....]. *)
Inductive Call : Type :=
  | call_last_offer_id
  | call_offers (id : Z)
  | call_buyEnabled
  | call_matchingEnabled.

Global Instance Call_eq_dec : EqDecision Call.
Proof. solve_decision. Defined.

(** ** The client object

    [calls] is instrumentation: the remote queries issued so far, oldest
    first. *)
Record SimpleMarket : Type := mkSimpleMarket {
  address : Address;
  _none_orders : gset Z;
  calls : list Call
}.

(** [SimpleMarket.__init__] *)
Definition SimpleMarket_init (a : Address) : SimpleMarket :=
  mkSimpleMarket a ∅ [].

(** Arguments of a transaction, and the pending action [Transact]. *)
Inductive Arg : Type :=
  | AAddress (a : string)
  | AInt (z : Z)
  | ABytes32 (z : Z)
  | ABool (b : bool).

Record Transact : Type := mkTransact {
  tx_address : Address;
  tx_function : string;
  tx_parameters : list Arg
}.

(** ** State and exception monad *)

Definition M (A : Type) : Type := SimpleMarket -> result A * SimpleMarket.

Definition ret {A} (a : A) : M A := fun s => (Ok a, s).

Definition raise {A} (e : exn) : M A := fun s => (Raise e, s).

Definition bind {A B} (m : M A) (f : A -> M B) : M B :=
  fun s =>
    match m s with
    | (Ok a, s') => f a s'
    | (Raise e, s') => (Raise e, s')
    end.

Notation "'let*' x ':=' m 'in' k" := (bind m (fun x => k))
  (at level 10, x name, m at level 100, k at level 200, only parsing).
Notation "'do*' m 'in' k" := (bind m (fun _ => k))
  (at level 10, m at level 100, k at level 200, only parsing).

Definition assert_ (b : bool) : M unit :=
  if b then ret tt else raise AssertionError.

Definition lift {A} (r : result A) : M A := fun s => (r, s).

Definition self_address : M Address := fun s => (Ok (address s), s).

Fixpoint mapM {A B} (f : A -> M B) (l : list A) : M (list B) :=
  match l with
  | [] => ret []
  | x :: r => let* y := f x in let* ys := mapM f r in ret (y :: ys)
  end.

Fixpoint mapR {A B} (f : A -> result B) (l : list A) : result (list B) :=
  match l with
  | [] => Ok []
  | x :: r =>
      result_bind (f x) (fun y =>
      result_bind (mapR f r) (fun ys => Ok (y :: ys)))
  end.

(** Python's [filter] with a predicate that may raise. *)
Fixpoint filterR {A} (p : A -> result bool) (l : list A) : result (list A) :=
  match l with
  | [] => Ok []
  | x :: r =>
      result_bind (p x) (fun b =>
      result_bind (filterR p r) (fun ys => Ok (if b then x :: ys else ys)))
  end.

(** Python's [sorted] with keys already computed: a stable sort, comparing
    keys with [<] only.  An element goes in front of the first element
    whose key is not smaller than its own. *)
Fixpoint insert_by {A} (key : A -> Wad) (x : A) (l : list A) : list A :=
  match l with
  | [] => [x]
  | y :: r =>
      if Wad_lt (key y) (key x) then y :: insert_by key x r
      else x :: y :: r
  end.

Fixpoint sorted_by {A} (key : A -> Wad) (l : list A) : list A :=
  match l with
  | [] => []
  | x :: r => insert_by key x (sorted_by key r)
  end.

Section Market.

(** [chain t] is the ledger as the remote call number [t] of this client
    sees it.  Nothing is assumed about how it evolves. *)
Variable chain : nat -> Ledger.

Definition record_call (c : Call) (s : SimpleMarket) : SimpleMarket :=
  mkSimpleMarket (address s) (_none_orders s) (calls s ++ [c]).

Definition contract_call {A} (c : Call) (read : Ledger -> A) : M A :=
  fun s => (Ok (read (chain (length (calls s)))), record_call c s).

Definition none_orders_add (id : Z) : M unit :=
  fun s =>
    (Ok tt, mkSimpleMarket (address s) ({[id]} ∪ _none_orders s) (calls s)).

Definition none_orders_mem (id : Z) : M bool :=
  fun s => (Ok (bool_decide (id ∈ _none_orders s)), s).

(** *** class SimpleMarket *)

Definition get_last_order_id : M Z :=
  contract_call call_last_offer_id last_offer_id.

Definition get_order (order_id : Z) : M (option Order) :=
  let* cached := none_orders_mem order_id in
  if cached then ret None
  else
    let* array := contract_call (call_offers order_id) (fun l => offers l order_id) in
    if negb (active array) then
      do* none_orders_add order_id in ret None
    else
      let* market := self_address in
      ret (Some (mkOrder market order_id (mkAddress (owner array))
                   (mkAddress (pay_gem array)) (mkWad (pay_amt array))
                   (mkAddress (buy_gem array)) (mkWad (buy_amt array))
                   (offer_timestamp array))).

Definition get_orders : M (list Order) :=
  let* n := get_last_order_id in
  let* orders := mapM (fun order_id => get_order (order_id + 1)) (seqZ 0 n) in
  ret (omap id orders).

Definition make (pay_token : Address) (pay_amount : Wad)
    (buy_token : Address) (buy_amount : Wad) : M Transact :=
  do* assert_ (Wad_gt pay_amount (mkWad 0)) in
  do* assert_ (Wad_gt buy_amount (mkWad 0)) in
  let* a := self_address in
  ret (mkTransact a "make"
         [AAddress (address_of pay_token); AAddress (address_of buy_token);
          AInt (value pay_amount); AInt (value buy_amount)]).

Definition bump (order_id : Z) : M Transact :=
  let* a := self_address in ret (mkTransact a "bump" [ABytes32 order_id]).

Definition take (order_id : Z) (quantity : Wad) : M Transact :=
  let* a := self_address in
  ret (mkTransact a "take" [ABytes32 order_id; AInt (value quantity)]).

Definition kill (order_id : Z) : M Transact :=
  let* a := self_address in ret (mkTransact a "kill" [ABytes32 order_id]).

(** *** class MatchingMarket *)

Definition is_buy_enabled : M bool :=
  contract_call call_buyEnabled buyEnabled.

Definition set_buy_enabled (buy_enabled : bool) : M Transact :=
  let* a := self_address in ret (mkTransact a "setBuyEnabled" [ABool buy_enabled]).

Definition is_matching_enabled : M bool :=
  contract_call call_matchingEnabled matchingEnabled.

Definition set_matching_enabled (matching_enabled : bool) : M Transact :=
  let* a := self_address in
  ret (mkTransact a "setMatchingEnabled" [ABool matching_enabled]).

Definition add_token_pair_whitelist (base_token quote_token : Address)
    : M Transact :=
  let* a := self_address in
  ret (mkTransact a "addTokenPairWhitelist"
         [AAddress (address_of base_token); AAddress (address_of quote_token)]).

(** The lambda given to [filter] in [position], closed over the
    arguments of [position] (primed here); [and] evaluates its right
    operand only when the left one holds. *)
Definition position_filter (pay_token' : Address) (pay_amount' : Wad)
    (buy_token' : Address) (buy_amount' : Wad) (o : Order) : result bool :=
  if Address_eq (pay_token o) pay_token' then
    if Address_eq (buy_token o) buy_token' then
      result_bind (Wad_truediv (pay_amount o) (buy_amount o)) (fun p =>
      result_bind (Wad_truediv pay_amount' buy_amount') (fun q =>
      Ok (Wad_ge p q)))
    else Ok false
  else Ok false.

(** The key lambda given to [sorted] in [position]. *)
Definition position_key (o : Order) : result Wad :=
  Wad_truediv (pay_amount o) (buy_amount o).

(** The part of [position] after [self.get_orders()]: [sorted] first
    draws the filtered orders, then computes every key, then sorts. *)
Definition position_of (pay_token : Address) (pay_amount : Wad)
    (buy_token : Address) (buy_amount : Wad) (all : list Order) : result Z :=
  result_bind
    (filterR (position_filter pay_token pay_amount buy_token buy_amount) all)
    (fun orders =>
  result_bind
    (mapR (fun o => result_bind (position_key o) (fun k => Ok (k, o))) orders)
    (fun keyed =>
  match sorted_by fst keyed with
  | ko :: _ => Ok (order_id (snd ko))
  | [] => Ok 0
  end)).

Definition position (pay_token : Address) (pay_amount : Wad)
    (buy_token : Address) (buy_amount : Wad) : M Z :=
  let* all := get_orders in
  lift (position_of pay_token pay_amount buy_token buy_amount all).

Definition MatchingMarket_make (pay_token : Address) (pay_amount : Wad)
    (buy_token : Address) (buy_amount : Wad) (pos : option Z) : M Transact :=
  do* assert_ (Wad_gt pay_amount (mkWad 0)) in
  do* assert_ (Wad_gt buy_amount (mkWad 0)) in
  let* pos :=
    match pos with
    | None => position pay_token pay_amount buy_token buy_amount
    | Some p => do* assert_ (0 <=? p) in ret p
    end in
  let* a := self_address in
  ret (mkTransact a "offer"
         [AInt (value pay_amount); AAddress (address_of pay_token);
          AInt (value buy_amount); AAddress (address_of buy_token);
          AInt pos]).

End Market.

(** ** The operations of the client, as a caller can sequence them

    Event subscriptions and token approvals go to other collaborators and
    do not read or write the client object; they are left out. *)
Inductive Op : Type :=
  | op_get_last_order_id
  | op_get_order (order_id : Z)
  | op_get_orders
  | op_make (pay_token : Address) (pay_amount : Wad)
      (buy_token : Address) (buy_amount : Wad)
  | op_bump (order_id : Z)
  | op_take (order_id : Z) (quantity : Wad)
  | op_kill (order_id : Z)
  | op_is_buy_enabled
  | op_set_buy_enabled (buy_enabled : bool)
  | op_is_matching_enabled
  | op_set_matching_enabled (matching_enabled : bool)
  | op_add_token_pair_whitelist (base_token quote_token : Address)
  | op_matching_make (pay_token : Address) (pay_amount : Wad)
      (buy_token : Address) (buy_amount : Wad) (pos : option Z)
  | op_position (pay_token : Address) (pay_amount : Wad)
      (buy_token : Address) (buy_amount : Wad).

(** The client object after one operation, whether it returned or raised. *)
Definition run_op (chain : nat -> Ledger) (op : Op) (s : SimpleMarket)
    : SimpleMarket :=
  match op with
  | op_get_last_order_id => snd (get_last_order_id chain s)
  | op_get_order i => snd (get_order chain i s)
  | op_get_orders => snd (get_orders chain s)
  | op_make pt pa bt ba => snd (make pt pa bt ba s)
  | op_bump i => snd (bump i s)
  | op_take i q => snd (take i q s)
  | op_kill i => snd (kill i s)
  | op_is_buy_enabled => snd (is_buy_enabled chain s)
  | op_set_buy_enabled b => snd (set_buy_enabled b s)
  | op_is_matching_enabled => snd (is_matching_enabled chain s)
  | op_set_matching_enabled b => snd (set_matching_enabled b s)
  | op_add_token_pair_whitelist a b => snd (add_token_pair_whitelist a b s)
  | op_matching_make pt pa bt ba pos =>
      snd (MatchingMarket_make chain pt pa bt ba pos s)
  | op_position pt pa bt ba => snd (position chain pt pa bt ba s)
  end.

Definition run_ops (chain : nat -> Ledger) (ops : list Op) (s : SimpleMarket)
    : SimpleMarket :=
  fold_left (fun s op => run_op chain op s) ops s.

(** ** What the statements below speak about *)

(** The order [get_order] builds from the tuple of an active offer. *)
Definition order_of_offer (m : Address) (id : Z) (a : Offer) : Order :=
  mkOrder m id (mkAddress (owner a)) (mkAddress (pay_gem a))
    (mkWad (pay_amt a)) (mkAddress (buy_gem a)) (mkWad (buy_amt a))
    (offer_timestamp a).

Definition present_order (m : Address) (id : Z) (a : Offer) : option Order :=
  if active a then Some (order_of_offer m id a) else None.

(** The orders obtained when the ids of [q] are queried one after the
    other at times [t0], [t0 + 1], ... *)
Definition queried (chain : nat -> Ledger) (m : Address) (t0 : nat)
    (q : list Z) : list Order :=
  omap id
    (imap (fun k i => present_order m i (offers (chain (t0 + k)%nat) i)) q).

(** An existing order lies ahead of the insertion point of the new order
    [(pt, pa, bt, ba)]: same pair, and a price not below the new one. *)
Definition qualifies (pt : Address) (pa : Wad) (bt : Address) (ba : Wad)
    (o : Order) : Prop :=
  pay_token o = pt /\ buy_token o = bt /\
  exists p q, sell_to_buy_price o = Ok p /\ Wad_truediv pa ba = Ok q /\
              value q <= value p.

(** The sell-to-buy price of an order whose [buy_amount] is not zero. *)
Definition price_of (o : Order) : Wad :=
  mkWad (Z.quot (value (pay_amount o) * WAD) (value (buy_amount o))).

(** Every order of the pair has a price, i.e. a non-zero [buy_amount]. *)
Definition priced (pt bt : Address) (all : list Order) : Prop :=
  forall o, o ∈ all -> pay_token o = pt -> buy_token o = bt ->
            value (buy_amount o) <> 0.

(** Case analysis on the orders of a list given in extension. *)
Ltac each_book_order Ho tac :=
  vm_compute in Ho;
  repeat (apply elem_of_cons in Ho as [-> | Ho]; [tac |]);
  inversion Ho.

(** "sell-to-buy price × buy-to-sell price" of the spec, in the
    arithmetic of [Wad]. *)
Definition price_product (o : Order) : result Wad :=
  result_bind (sell_to_buy_price o) (fun p =>
  result_bind (buy_to_sell_price o) (fun q => Ok (Wad_mul p q))).

(** The statement "[position] returns the id of the weakest order ahead
    of the insertion point", with no proviso. *)
Definition returns_weakest_ahead (chain : nat -> Ledger) (s : SimpleMarket)
    (pt : Address) (pa : Wad) (bt : Address) (ba : Wad) : Prop :=
  exists all s' o p,
    get_orders chain s = (Ok all, s') /\ o ∈ all /\
    position chain pt pa bt ba s = (Ok (order_id o), s') /\
    qualifies pt pa bt ba o /\ sell_to_buy_price o = Ok p /\
    forall o' p', o' ∈ all -> qualifies pt pa bt ba o' ->
      sell_to_buy_price o' = Ok p' -> value p <= value p'.

(** ** A small order book

    Offers 10, 20, 30 and 40 are active, all selling DAI for WETH, at the
    prices 3.0, 2.0, 1.0 and 2.0; every other slot is empty. *)
Definition DAI : Address := mkAddress "0x6b17".
Definition WETH : Address := mkAddress "0xc02a".

Definition wad (n : Z) : Wad := mkWad (n * WAD).

Definition empty_offer : Offer := mkOffer 0 "0x0000" 0 "0x0000" "0x0000" false 0.

Definition book_offer (pay buy : Z) : Offer :=
  mkOffer (pay * WAD) "0x6b17" (buy * WAD) "0xc02a" "0xa11ce" true 1510000000.

Definition book : Ledger :=
  mkLedger 40
    (fun id =>
       if id =? 10 then book_offer 3 1
       else if id =? 20 then book_offer 2 1
       else if id =? 30 then book_offer 1 1
       else if id =? 40 then book_offer 4 2
       else empty_offer)
    true true.

Definition book_chain : nat -> Ledger := fun _ => book.

(** A ledger on which every slot holds an active offer. *)
Definition full_book : Ledger :=
  mkLedger 40 (fun _ => book_offer 1 1) true true.

Definition otc : SimpleMarket := SimpleMarket_init (mkAddress "0x14fb").

(** One unit of DAI offered for three units of WETH. *)
Definition one_for_three : Order :=
  order_of_offer (address otc) 1 (book_offer 1 3).

Definition book_orders : list Order :=
  match fst (get_orders book_chain otc) with
  | Ok l => l
  | Raise _ => []
  end.

(** Order of two elements under the key of a sort. *)
Definition key_le {A} (key : A -> Wad) (x y : A) : Prop :=
  value (key x) <= value (key y).

(** ** Statements about the cache of absent ids *)

(** Every cached id was reported not active by the ledger, in answer to a
    recorded [offers] query. *)
Definition cache_justified (chain : nat -> Ledger) (s : SimpleMarket) : Prop :=
  forall id, id ∈ _none_orders s ->
    exists t, calls s !! t = Some (call_offers id) /\
              active (offers (chain t) id) = false.


(** The cache holds only ids that the ledger [l] reports not active. *)
Definition cache_sound (l : Ledger) (s : SimpleMarket) : Prop :=
  forall id, id ∈ _none_orders s -> active (offers l id) = false.

(** The active offers of the ledger [l] in the slots [1] to its last id,
    as orders of the market at address [m]. *)
Definition active_offers (l : Ledger) (m : Address) : list Order :=
  omap (fun i => present_order m i (offers l i)) (seqZ 1 (last_offer_id l)).

(** * Facts about the imported values *)

Lemma Address_eq_true a b : Address_eq a b = true <-> a = b.
Proof.
  unfold Address_eq. rewrite bool_decide_eq_true.
  destruct a as [x], b as [y]; simpl. split; congruence.
Qed.

Lemma Address_eq_false a b : Address_eq a b = false <-> a <> b.
Proof.
  rewrite <- Address_eq_true. destruct (Address_eq a b); split; congruence.
Qed.

Lemma Wad_truediv_Ok a b :
  value b <> 0 ->
  Wad_truediv a b = Ok (mkWad (Z.quot (value a * WAD) (value b))).
Proof.
  intros Hb. unfold Wad_truediv.
  destruct (Z.eqb_spec (value b) 0); [contradiction | reflexivity].
Qed.

Lemma Wad_truediv_zero a b : value b = 0 -> Wad_truediv a b = Raise ArithmeticError.
Proof. intros Hb. unfold Wad_truediv. now rewrite Hb. Qed.

Lemma Wad_truediv_inv a b p :
  Wad_truediv a b = Ok p ->
  value b <> 0 /\ p = mkWad (Z.quot (value a * WAD) (value b)).
Proof.
  unfold Wad_truediv. destruct (Z.eqb_spec (value b) 0); [discriminate |].
  intros [= <-]. auto.
Qed.

Lemma reciprocal_product_bound a b w :
  0 < a -> 0 < b -> 0 < w ->
  0 <= (a * w / b) * (b * w / a) / w <= w.
Proof.
  intros Ha Hb Hw.
  assert (Hp : 0 <= a * w / b) by (apply Z.div_pos; nia).
  assert (Hq : 0 <= b * w / a) by (apply Z.div_pos; nia).
  assert (Hpb : b * (a * w / b) <= a * w) by (apply Z.mul_div_le; lia).
  assert (Hqa : a * (b * w / a) <= b * w) by (apply Z.mul_div_le; lia).
  split; [apply Z.div_pos; nia |].
  apply Z.div_le_upper_bound; [lia |].
  apply (Z.mul_le_mono_pos_r _ _ (a * b)); [nia |].
  transitivity ((a * w) * (b * w)); [| nia].
  transitivity ((b * (a * w / b)) * (a * (b * w / a))); [nia |].
  apply Z.mul_le_mono_nonneg; nia.
Qed.

Lemma reciprocal_product_exact a b w :
  0 < a -> 0 < b -> 0 < w ->
  (b | a * w) -> (a | b * w) ->
  (a * w / b) * (b * w / a) / w = w.
Proof.
  intros Ha Hb Hw Hdb Hda.
  assert (Hpb : a * w = b * (a * w / b))
    by (apply Z_div_exact_full_2; [lia | now apply Z.mod_divide; [lia |]]).
  assert (Hqa : b * w = a * (b * w / a))
    by (apply Z_div_exact_full_2; [lia | now apply Z.mod_divide; [lia |]]).
  assert (E : (a * w / b) * (b * w / a) = w * w).
  { apply (Z.mul_cancel_r _ _ (a * b)); [nia |].
    transitivity ((b * (a * w / b)) * (a * (b * w / a))); [ring |].
    rewrite <- Hpb, <- Hqa. ring. }
  rewrite E. apply Z.div_mul. lia.
Qed.

Lemma price_product_zero_pay o :
  value (pay_amount o) = 0 -> value (buy_amount o) <> 0 ->
  price_product o = Raise ArithmeticError.
Proof.
  intros Ha Hb. unfold price_product, sell_to_buy_price, buy_to_sell_price.
  rewrite (Wad_truediv_Ok _ _ Hb). cbn [result_bind].
  now rewrite (Wad_truediv_zero _ _ Ha).
Qed.

(** * Facts about the stable sort *)

Section Sorting.
Context {A : Type} (key : A -> Wad).

Lemma insert_by_Permutation x l : insert_by key x l ≡ₚ x :: l.
Proof.
  induction l as [| y r IH]; simpl; [reflexivity |].
  destruct (Wad_lt (key y) (key x)); [| reflexivity].
  rewrite IH. apply Permutation_swap.
Qed.

Lemma sorted_by_Permutation l : sorted_by key l ≡ₚ l.
Proof.
  induction l as [| x r IH]; simpl; [reflexivity |].
  rewrite insert_by_Permutation. now rewrite IH.
Qed.

Lemma sorted_by_nil_inv l : sorted_by key l = [] -> l = [].
Proof.
  intros H. apply Permutation_nil_r. rewrite <- H.
  symmetry. apply sorted_by_Permutation.
Qed.

Lemma insert_by_Sorted x l :
  Sorted (key_le key) l -> Sorted (key_le key) (insert_by key x l).
Proof.
  induction 1 as [| y r Hr IH Hy]; simpl.
  - repeat constructor.
  - unfold Wad_lt. destruct (Z.ltb_spec (value (key y)) (value (key x))).
    + constructor; [exact IH |].
      destruct Hy as [| z r' Hz]; simpl.
      * constructor. unfold key_le. lia.
      * destruct (Wad_lt (key z) (key x)); constructor;
          unfold key_le in *; lia.
    + constructor; [constructor; assumption |].
      constructor. unfold key_le. lia.
Qed.

Lemma sorted_by_Sorted l : Sorted (key_le key) (sorted_by key l).
Proof.
  induction l; simpl; [constructor | now apply insert_by_Sorted].
Qed.

(** The first element of the sorted list is the first element of the
    input that has the least key. *)
Lemma sorted_by_head l x r :
  sorted_by key l = x :: r ->
  exists l1 l2, l = l1 ++ x :: l2 /\
    (forall y, y ∈ l1 -> value (key x) < value (key y)) /\
    (forall y, y ∈ l2 -> value (key x) <= value (key y)).
Proof.
  revert x r. induction l as [| a l' IH]; simpl; [discriminate |].
  intros x r. destruct (sorted_by key l') as [| h t] eqn:E; simpl.
  - apply sorted_by_nil_inv in E. subst l'. intros [= <- <-].
    exists [], []. repeat split; intros y Hy; inversion Hy.
  - destruct (IH h t eq_refl) as (l1 & l2 & -> & Hl1 & Hl2).
    unfold Wad_lt. destruct (Z.ltb_spec (value (key h)) (value (key a))).
    + intros [= <- <-]. exists (a :: l1), l2. repeat split; [| exact Hl2].
      intros y [-> | Hy]%elem_of_cons; [lia | auto].
    + intros [= <- <-]. exists [], (l1 ++ h :: l2). repeat split.
      * intros y Hy. inversion Hy.
      * intros y [Hy | [-> | Hy]%elem_of_cons]%elem_of_app.
        -- specialize (Hl1 y Hy). lia.
        -- lia.
        -- specialize (Hl2 y Hy). lia.
Qed.

(** Stability: elements with one key keep their relative order. *)
Lemma insert_by_stable k x l :
  List.filter (fun y => Wad_eq (key y) k) (insert_by key x l) =
  List.filter (fun y => Wad_eq (key y) k) (x :: l).
Proof.
  induction l as [| y r IH]; [reflexivity |].
  cbn [insert_by]. unfold Wad_lt.
  destruct (Z.ltb_spec (value (key y)) (value (key x))); [| reflexivity].
  cbn [List.filter] in *. rewrite IH. unfold Wad_eq.
  destruct (Z.eqb_spec (value (key x)) (value k)),
           (Z.eqb_spec (value (key y)) (value k)); try reflexivity; lia.
Qed.

Lemma sorted_by_stable k l :
  List.filter (fun y => Wad_eq (key y) k) (sorted_by key l) =
  List.filter (fun y => Wad_eq (key y) k) l.
Proof.
  induction l as [| x r IH]; [reflexivity |].
  cbn [sorted_by]. rewrite insert_by_stable. cbn [List.filter].
  now rewrite IH.
Qed.

End Sorting.

(** * Facts about lists of ids *)

Lemma StronglySorted_lt_seqZ m n : StronglySorted Z.lt (seqZ m n).
Proof.
  remember (Z.to_nat n) as k eqn:Hk. revert m n Hk.
  induction k as [| k IH]; intros m n Hk.
  - rewrite seqZ_nil by lia. constructor.
  - rewrite seqZ_cons by lia. constructor.
    + apply IH. lia.
    + apply Forall_seqZ. lia.
Qed.

Lemma filter_Forall_iff {A} (P Q : A -> Prop)
    `{!forall x, Decision (P x)} `{!forall x, Decision (Q x)} (l : list A) :
  Forall (fun x => P x <-> Q x) l -> filter P l = filter Q l.
Proof.
  induction 1 as [| x r Hx _ IH]; [reflexivity |].
  rewrite !filter_cons, IH.
  destruct (decide (P x)), (decide (Q x)); tauto.
Qed.

Lemma StronglySorted_filter {A} (R : relation A) (P : A -> Prop)
    `{!forall x, Decision (P x)} (l : list A) :
  StronglySorted R l -> StronglySorted R (filter P l).
Proof.
  induction 1 as [| x r Hr IH Hx]; [constructor |].
  rewrite filter_cons. destruct (decide (P x)); [| exact IH].
  constructor; [exact IH |].
  rewrite Forall_forall in Hx |- *.
  intros y [_ Hy]%list_elem_of_filter. auto.
Qed.

Lemma StronglySorted_lt_NoDup (l : list Z) : StronglySorted Z.lt l -> NoDup l.
Proof.
  induction 1 as [| x r Hr IH Hx]; constructor; [| exact IH].
  intros Hin. rewrite Forall_forall in Hx. specialize (Hx x Hin). lia.
Qed.

Lemma seqZ_shift n : (fun k => k + 1) <$> seqZ 0 n = seqZ 1 n.
Proof.
  change (seqZ 1 n) with (seqZ (1 + 0) n).
  rewrite <- (fmap_add_seqZ 1 0 n). apply list_fmap_ext. intros; lia.
Qed.

Lemma filter_all {A} (P : A -> Prop) `{!forall x, Decision (P x)} (l : list A) :
  (forall x, x ∈ l -> P x) -> filter P l = l.
Proof.
  induction l as [| x r IH]; intros Hl; [reflexivity |].
  rewrite filter_cons_True by (apply Hl; left).
  f_equal. apply IH. intros y Hy. apply Hl. now right.
Qed.

(** * Facts about the order repository *)

Section Repository.

Variable chain : nat -> Ledger.

Lemma get_order_cached id s :
  id ∈ _none_orders s -> get_order chain id s = (Ok None, s).
Proof.
  intros Hin. unfold get_order, bind, none_orders_mem.
  now rewrite bool_decide_eq_true_2.
Qed.

Lemma get_order_fresh id s :
  id ∉ _none_orders s ->
  get_order chain id s =
    let a := offers (chain (length (calls s))) id in
    (Ok (present_order (address s) id a),
     mkSimpleMarket (address s)
       (if active a then _none_orders s else {[id]} ∪ _none_orders s)
       (calls s ++ [call_offers id])).
Proof.
  intros Hin. unfold get_order, bind, none_orders_mem.
  rewrite bool_decide_eq_false_2 by exact Hin.
  unfold contract_call, present_order, record_call. cbn.
  destruct (active _); reflexivity.
Qed.

Lemma queried_cons m t0 i q :
  queried chain m t0 (i :: q) =
    match present_order m i (offers (chain t0) i) with
    | Some o => o :: queried chain m (S t0) q
    | None => queried chain m (S t0) q
    end.
Proof.
  unfold queried. rewrite imap_cons. cbn [omap list_omap].
  rewrite Nat.add_0_r.
  rewrite (imap_ext _
    (fun k i => present_order m i (offers (chain (S t0 + k)%nat) i)))
    by (intros k x _; unfold compose; now rewrite Nat.add_succ_r).
  destruct (present_order m i _); reflexivity.
Qed.

Lemma elem_of_queried m t0 q o :
  o ∈ queried chain m t0 q <->
  exists k i, q !! k = Some i /\
    active (offers (chain (t0 + k)%nat) i) = true /\
    o = order_of_offer m i (offers (chain (t0 + k)%nat) i).
Proof.
  unfold queried. rewrite list_elem_of_omap. split.
  - intros (x & Hx & Hid). apply elem_of_lookup_imap in Hx.
    destruct Hx as (k & i & -> & Hk). exists k, i. split; [exact Hk |].
    unfold present_order in Hid. simpl in Hid.
    destruct (active _); [| discriminate].
    injection Hid as <-. auto.
  - intros (k & i & Hk & Ha & ->). eexists. split.
    + apply elem_of_lookup_imap. exists k, i. split; [reflexivity | exact Hk].
    + unfold present_order. simpl. now rewrite Ha.
Qed.

Lemma queried_order_id m t0 q o :
  o ∈ queried chain m t0 q -> order_id o ∈ q /\ market o = m.
Proof.
  intros (k & i & Hk & _ & ->)%elem_of_queried. split; [| reflexivity].
  simpl. apply list_elem_of_lookup. eauto.
Qed.

Lemma queried_ascending m q :
  StronglySorted Z.lt q ->
  forall t0, StronglySorted Z.lt (order_id <$> queried chain m t0 q).
Proof.
  induction 1 as [| i r Hr IH Hi]; intros t0.
  - constructor.
  - rewrite queried_cons. unfold present_order.
    destruct (active _); [| apply IH].
    rewrite fmap_cons. constructor; [apply IH |].
    rewrite Forall_forall in Hi |- *.
    intros j (o & -> & Ho)%list_elem_of_fmap. simpl.
    apply Hi. eapply queried_order_id, Ho.
Qed.

(** [get_order] over ascending ids: the ids not yet cached are queried
    one after the other, the cached ones are skipped. *)
Lemma mapM_get_order ids :
  StronglySorted Z.lt ids ->
  forall s,
    let q := filter (fun i => i ∉ _none_orders s) ids in
    exists rs s',
      mapM (get_order chain) ids s = (Ok rs, s') /\
      address s' = address s /\
      _none_orders s ⊆ _none_orders s' /\
      calls s' = calls s ++ (call_offers <$> q) /\
      omap id rs = queried chain (address s) (length (calls s)) q.
Proof.
  induction 1 as [| i r Hr IH Hi]; intros s q.
  - exists [], s. subst q. cbn. rewrite app_nil_r. auto.
  - subst q. cbn [mapM]. unfold bind at 1.
    destruct (decide (i ∈ _none_orders s)) as [Hin | Hin].
    + rewrite (get_order_cached _ _ Hin).
      destruct (IH s) as (rs & s' & E & Ha & Hc & Hl & Ho).
      unfold bind. rewrite E. exists (None :: rs), s'.
      rewrite filter_cons_False by tauto. cbn. auto.
    + rewrite (get_order_fresh _ _ Hin). cbn zeta.
      set (a := offers (chain (length (calls s))) i).
      set (s1 := mkSimpleMarket _ _ _).
      destruct (IH s1) as (rs & s' & E & Ha & Hc & Hl & Ho).
      unfold bind. rewrite E.
      exists (present_order (address s) i a :: rs), s'.
      assert (Hq : filter (fun j => j ∉ _none_orders s1) r =
                   filter (fun j => j ∉ _none_orders s) r).
      { apply filter_Forall_iff. rewrite Forall_forall in Hi |- *.
        intros j Hj. specialize (Hi j Hj). subst s1. simpl.
        destruct (active a); [tauto |].
        rewrite elem_of_union, elem_of_singleton.
        split; [tauto | intros H [-> | H']; [lia | tauto]]. }
      rewrite Hq in Hl, Ho.
      rewrite filter_cons_True by exact Hin.
      split; [reflexivity |]. split; [exact Ha |].
      split; [subst s1; simpl in Hc; destruct (active a); set_solver |].
      split.
      * rewrite Hl. subst s1. simpl. rewrite <- app_assoc. reflexivity.
      * rewrite queried_cons. fold a.
        subst s1. simpl in Ho. rewrite length_app in Ho. simpl in Ho.
        rewrite Nat.add_1_r in Ho.
        cbn [omap list_omap]. simpl.
        destruct (present_order (address s) i a); simpl; now rewrite Ho.
Qed.

Lemma mapM_fmap {A B C} (f : B -> M C) (g : A -> B) (l : list A) :
  mapM (fun x => f (g x)) l = mapM f (g <$> l).
Proof. induction l as [| x r IH]; simpl; [reflexivity | now rewrite IH]. Qed.

(** The closed form of [get_orders]. *)
Lemma get_orders_spec s :
  let t0 := length (calls s) in
  let n := last_offer_id (chain t0) in
  let q := filter (fun i => i ∉ _none_orders s) (seqZ 1 n) in
  exists s',
    get_orders chain s = (Ok (queried chain (address s) (S t0) q), s') /\
    address s' = address s /\
    _none_orders s ⊆ _none_orders s' /\
    calls s' = calls s ++ call_last_offer_id :: (call_offers <$> q).
Proof.
  intros t0 n q. unfold get_orders, bind at 1, get_last_order_id, contract_call.
  fold t0. fold n.
  rewrite (mapM_fmap (get_order chain) (fun k => k + 1)).
  rewrite seqZ_shift.
  destruct (mapM_get_order (seqZ 1 n) (StronglySorted_lt_seqZ 1 n)
              (record_call call_last_offer_id s))
    as (rs & s' & E & Ha & Hc & Hl & Ho).
  unfold bind. rewrite E. exists s'. unfold ret.
  simpl in Ha, Hc, Hl, Ho. rewrite length_app in Ho. simpl in Ho.
  rewrite Nat.add_1_r in Ho. fold t0 in Ho. fold q in Ho, Hl.
  rewrite Ho. repeat split; [exact Ha | exact Hc |].
  rewrite Hl, <- app_assoc. reflexivity.
Qed.

End Repository.

(** * Facts about the position search *)

Lemma filterR_filter {A} (p : A -> result bool) (l : list A) :
  (forall x, x ∈ l -> exists b, p x = Ok b) ->
  filterR p l = Ok (filter (fun x => p x = Ok true) l).
Proof.
  induction l as [| x r IH]; intros Hp; [reflexivity |].
  cbn [filterR]. destruct (Hp x) as [b Hb]; [left |].
  rewrite filter_cons.
  rewrite Hb, IH by (intros y Hy; apply Hp; now right).
  cbn [result_bind]. destruct b.
  - rewrite decide_True by reflexivity. reflexivity.
  - rewrite decide_False by congruence. reflexivity.
Qed.

Lemma filter_none {A} (P : A -> Prop) `{!forall x, Decision (P x)} (l : list A) :
  (forall x, x ∈ l -> ~ P x) -> filter P l = [].
Proof.
  induction l as [| x r IH]; intros Hl; [reflexivity |].
  rewrite filter_cons_False by (apply Hl; left).
  apply IH. intros y Hy. apply Hl. now right.
Qed.

Section Position.

Variables (pt : Address) (pa : Wad) (bt : Address) (ba : Wad).

Lemma position_filter_true o :
  position_filter pt pa bt ba o = Ok true <-> qualifies pt pa bt ba o.
Proof.
  unfold position_filter, qualifies, sell_to_buy_price. split.
  - destruct (Address_eq (pay_token o) pt) eqn:E1; [| discriminate].
    destruct (Address_eq (buy_token o) bt) eqn:E2; [| discriminate].
    apply Address_eq_true in E1, E2.
    destruct (Wad_truediv (pay_amount o) (buy_amount o)) as [p |];
      [| discriminate].
    destruct (Wad_truediv pa ba) as [q |]; [| discriminate].
    cbn. unfold Wad_ge. intros [= H%Z.leb_le]. eauto 10.
  - intros (E1 & E2 & p & q & -> & -> & Hle).
    apply Address_eq_true in E1, E2. rewrite E1, E2. cbn.
    unfold Wad_ge. f_equal. now apply Z.leb_le.
Qed.

Lemma position_filter_other o :
  ~ (pay_token o = pt /\ buy_token o = bt) ->
  position_filter pt pa bt ba o = Ok false.
Proof.
  intros H. unfold position_filter.
  destruct (Address_eq (pay_token o) pt) eqn:E1; [| reflexivity].
  destruct (Address_eq (buy_token o) bt) eqn:E2; [| reflexivity].
  apply Address_eq_true in E1, E2. tauto.
Qed.

Lemma position_filter_total o :
  value ba <> 0 ->
  (pay_token o = pt -> buy_token o = bt -> value (buy_amount o) <> 0) ->
  exists b, position_filter pt pa bt ba o = Ok b.
Proof.
  intros Hba Ho. unfold position_filter.
  destruct (Address_eq (pay_token o) pt) eqn:E1; [| eauto].
  destruct (Address_eq (buy_token o) bt) eqn:E2; [| eauto].
  apply Address_eq_true in E1, E2.
  rewrite (Wad_truediv_Ok _ _ (Ho E1 E2)), (Wad_truediv_Ok _ _ Hba).
  cbn. eauto.
Qed.

(** An order of the pair without a price makes the lambda raise. *)
Lemma position_filter_unpriced o :
  pay_token o = pt -> buy_token o = bt -> value (buy_amount o) = 0 ->
  position_filter pt pa bt ba o = Raise ArithmeticError.
Proof.
  intros E1 E2 Hz. unfold position_filter.
  apply Address_eq_true in E1, E2. rewrite E1, E2.
  now rewrite (Wad_truediv_zero _ _ Hz).
Qed.

Lemma qualifies_price o :
  qualifies pt pa bt ba o ->
  sell_to_buy_price o = Ok (price_of o) /\ value (buy_amount o) <> 0.
Proof.
  intros (_ & _ & p & q & Hp & _ & _).
  apply Wad_truediv_inv in Hp as [Hb ->]. split; [| exact Hb].
  unfold sell_to_buy_price. now apply Wad_truediv_Ok.
Qed.

Lemma mapR_keys (l : list Order) :
  (forall o, o ∈ l -> value (buy_amount o) <> 0) ->
  mapR (fun o => result_bind (position_key o) (fun k => Ok (k, o))) l =
  Ok ((fun o => (price_of o, o)) <$> l).
Proof.
  induction l as [| o r IH]; intros H; [reflexivity |].
  cbn [mapR]. unfold position_key at 1.
  rewrite (Wad_truediv_Ok _ _ (H o ltac:(left))).
  rewrite IH by (intros y Hy; apply H; now right). reflexivity.
Qed.

(** No order lies ahead of the insertion point: the hint is [0]. *)
Lemma position_of_none all :
  (forall o, o ∈ all -> position_filter pt pa bt ba o = Ok false) ->
  position_of pt pa bt ba all = Ok 0.
Proof.
  intros H. unfold position_of.
  rewrite filterR_filter by eauto.
  rewrite filter_none; [reflexivity |].
  intros o Ho. rewrite (H o Ho). congruence.
Qed.

(** Some order lies ahead: the hint is the id of the first order, in
    the enumeration, among those of least price. *)
Lemma position_of_some all :
  value ba <> 0 ->
  priced pt bt all ->
  (exists o, o ∈ all /\ qualifies pt pa bt ba o) ->
  exists f1 o f2,
    (filter (fun o => position_filter pt pa bt ba o = Ok true) all
      = f1 ++ o :: f2) /\
    position_of pt pa bt ba all = Ok (order_id o) /\
    (forall y, y ∈ f1 -> value (price_of o) < value (price_of y)) /\
    (forall y, y ∈ f2 -> value (price_of o) <= value (price_of y)).
Proof.
  intros Hba Hpriced (o0 & Hin0 & Hq0). unfold position_of.
  rewrite filterR_filter
    by (intros o Ho; apply position_filter_total; [exact Hba | now apply Hpriced]).
  set (F := filter _ all). cbn [result_bind].
  rewrite mapR_keys.
  2:{ intros o [Ho _]%list_elem_of_filter.
      apply position_filter_true in Ho. now apply qualifies_price in Ho. }
  cbn [result_bind].
  destruct (sorted_by fst _) as [| ko t] eqn:E.
  - apply sorted_by_nil_inv, fmap_nil_inv in E.
    assert (Hin : o0 ∈ F)
      by (apply list_elem_of_filter; split;
          [now apply position_filter_true | exact Hin0]).
    rewrite E in Hin. inversion Hin.
  - apply sorted_by_head in E as (l1 & l2 & E & H1 & H2).
    apply fmap_app_inv in E as (f1 & rest & -> & E2 & EF).
    symmetry in E2.
    apply fmap_cons_inv in E2 as (o & f2 & -> & -> & ->).
    exists f1, o, f2. repeat split; [exact EF | |].
    + intros y Hy. apply (H1 (price_of y, y)).
      apply list_elem_of_fmap. eauto.
    + intros y Hy. apply (H2 (price_of y, y)).
      apply list_elem_of_fmap. eauto.
Qed.

Lemma position_of_total all :
  value ba <> 0 ->
  priced pt bt all ->
  exists p, position_of pt pa bt ba all = Ok p.
Proof.
  intros Hba Hpriced. unfold position_of.
  rewrite filterR_filter
    by (intros o Ho; apply position_filter_total; [exact Hba | now apply Hpriced]).
  cbn [result_bind]. rewrite mapR_keys.
  2:{ intros o [Ho _]%list_elem_of_filter.
      apply position_filter_true in Ho. now apply qualifies_price in Ho. }
  cbn [result_bind]. destruct (sorted_by fst _); eauto.
Qed.

End Position.

Section PositionOnLedger.

Variable chain : nat -> Ledger.

Lemma get_orders_ids s all s' :
  get_orders chain s = (Ok all, s') ->
  forall o, o ∈ all ->
    (1 <= order_id o <= last_offer_id (chain (length (calls s)))) /\
    (order_id o ∉ _none_orders s) /\
    market o = address s.
Proof.
  intros Hg o Ho.
  destruct (get_orders_spec chain s) as (s'' & E & _).
  rewrite E in Hg. injection Hg as <- _.
  apply queried_order_id in Ho as [Hid Hm].
  apply list_elem_of_filter in Hid as [Hc Hid].
  apply elem_of_seqZ in Hid. repeat split; [lia | lia | exact Hc | exact Hm].
Qed.

Lemma get_orders_ascending s all s' :
  get_orders chain s = (Ok all, s') ->
  StronglySorted Z.lt (order_id <$> all).
Proof.
  intros Hg. destruct (get_orders_spec chain s) as (s'' & E & _).
  rewrite E in Hg. injection Hg as <- _.
  apply queried_ascending, StronglySorted_filter, StronglySorted_lt_seqZ.
Qed.

Lemma position_unfold pt pa bt ba s all s' :
  get_orders chain s = (Ok all, s') ->
  position chain pt pa bt ba s = (position_of pt pa bt ba all, s').
Proof. intros Hg. unfold position, bind. now rewrite Hg. Qed.

(** The order [position] picks: it lies ahead of the insertion point,
    no order ahead has a smaller price, and none with the same price
    has a smaller id. *)
Lemma position_found pt pa bt ba s all s' :
  get_orders chain s = (Ok all, s') ->
  value ba <> 0 ->
  priced pt bt all ->
  (exists o, o ∈ all /\ qualifies pt pa bt ba o) ->
  exists o, o ∈ all /\
    position chain pt pa bt ba s = (Ok (order_id o), s') /\
    qualifies pt pa bt ba o /\
    forall o', o' ∈ all -> qualifies pt pa bt ba o' ->
      value (price_of o) <= value (price_of o') /\
      (value (price_of o') = value (price_of o) -> order_id o <= order_id o').
Proof.
  intros Hg Hba Hpriced Hex.
  destruct (position_of_some pt pa bt ba all Hba Hpriced Hex)
    as (f1 & o & f2 & EF & Hpos & H1 & H2).
  assert (HoF : o ∈ filter (fun o => position_filter pt pa bt ba o = Ok true) all)
    by (rewrite EF; apply elem_of_app; right; left).
  apply list_elem_of_filter in HoF as [Hq Hin].
  exists o. split; [exact Hin |]. split.
  { rewrite (position_unfold _ _ _ _ _ _ _ Hg). now rewrite Hpos. }
  split; [now apply position_filter_true |].
  intros o' Hin' Hq'.
  assert (Ho' : o' ∈ f1 ++ o :: f2)
    by (rewrite <- EF; apply list_elem_of_filter; split;
        [now apply position_filter_true | exact Hin']).
  apply elem_of_app in Ho' as [Ho' | Ho'].
  { specialize (H1 o' Ho'). split; lia. }
  apply elem_of_cons in Ho' as [-> | Ho']; [split; lia |].
  split; [apply H2, Ho' |]. intros _.
  pose proof (get_orders_ascending _ _ _ Hg) as Hs.
  assert (Hs' : StronglySorted (fun a b => order_id a < order_id b) all).
  { clear -Hs. induction all as [| a r IH]; [constructor |].
    change (StronglySorted Z.lt (order_id a :: (order_id <$> r))) in Hs.
    apply StronglySorted_cons in Hs as [Ha Hr].
    constructor; [now apply IH |].
    exact (proj1 (Forall_fmap order_id (Z.lt (order_id a)) r) Ha). }
  apply (StronglySorted_filter _
           (fun o => position_filter pt pa bt ba o = Ok true)) in Hs'.
  rewrite EF in Hs'. apply StronglySorted_app_1_r in Hs'.
  apply StronglySorted_cons in Hs' as [Hf2 _].
  rewrite Forall_forall in Hf2. specialize (Hf2 o' Ho'). simpl in Hf2. lia.
Qed.

End PositionOnLedger.

Example book_orders_ids : order_id <$> book_orders = [10; 20; 30; 40].
Proof. vm_compute. reflexivity. Qed.

Example book_get_orders :
  get_orders book_chain otc = (Ok book_orders, snd (get_orders book_chain otc)).
Proof. vm_compute. reflexivity. Qed.

(** On an instance that has id 7 cached as absent, [get_orders] does not
    ask the ledger about id 7 again. *)
Example get_orders_skips_cached :
  let s1 := snd (get_order book_chain 7 otc) in
  calls s1 = [call_offers 7] /\
  (call_offers 7 ∉ drop 1 (calls (snd (get_orders book_chain s1)))) /\
  (call_offers 8 ∈ drop 1 (calls (snd (get_orders book_chain s1)))).
Proof.
  split; [vm_compute; reflexivity |]. split.
  - apply (bool_decide_unpack _). vm_compute. exact I.
  - apply (bool_decide_unpack _). vm_compute. exact I.
Qed.

Example position_at_2 :
  fst (position book_chain DAI (wad 2) WETH (wad 1) otc) = Ok 20.
Proof. vm_compute. reflexivity. Qed.

Example position_at_5 :
  fst (position book_chain DAI (wad 5) WETH (wad 1) otc) = Ok 0.
Proof. vm_compute. reflexivity. Qed.

Example position_at_half :
  fst (position book_chain DAI (wad 1) WETH (wad 2) otc) = Ok 30.
Proof. vm_compute. reflexivity. Qed.

(** * Facts about the command builders and the cache *)

Section Client.

Variable chain : nat -> Ledger.

Lemma make_unfold pt pa bt ba s :
  make pt pa bt ba s =
    if Wad_gt pa (mkWad 0) && Wad_gt ba (mkWad 0) then
      (Ok (mkTransact (address s) "make"
             [AAddress (address_of pt); AAddress (address_of bt);
              AInt (value pa); AInt (value ba)]), s)
    else (Raise AssertionError, s).
Proof.
  unfold make, bind, assert_.
  destruct (Wad_gt pa (mkWad 0)), (Wad_gt ba (mkWad 0)); reflexivity.
Qed.

Lemma MatchingMarket_make_unfold pt pa bt ba pos s :
  MatchingMarket_make chain pt pa bt ba pos s =
    if Wad_gt pa (mkWad 0) && Wad_gt ba (mkWad 0) then
      match pos with
      | Some p =>
          if 0 <=? p then
            (Ok (mkTransact (address s) "offer"
                   [AInt (value pa); AAddress (address_of pt);
                    AInt (value ba); AAddress (address_of bt); AInt p]), s)
          else (Raise AssertionError, s)
      | None =>
          match position chain pt pa bt ba s with
          | (Ok p, s') =>
              (Ok (mkTransact (address s') "offer"
                     [AInt (value pa); AAddress (address_of pt);
                      AInt (value ba); AAddress (address_of bt); AInt p]), s')
          | (Raise e, s') => (Raise e, s')
          end
      end
    else (Raise AssertionError, s).
Proof.
  unfold MatchingMarket_make, bind, assert_.
  destruct (Wad_gt pa (mkWad 0)), (Wad_gt ba (mkWad 0)); try reflexivity.
  cbn. destruct pos as [p |].
  - unfold bind. destruct (0 <=? p); reflexivity.
  - destruct (position chain pt pa bt ba s) as [[p | e] s']; reflexivity.
Qed.

Lemma Wad_gt_zero a : Wad_gt a (mkWad 0) = true <-> 0 < value a.
Proof. unfold Wad_gt. cbn. apply Z.ltb_lt. Qed.

Lemma get_order_none_orders id s :
  _none_orders s ⊆ _none_orders (snd (get_order chain id s)).
Proof.
  destruct (decide (id ∈ _none_orders s)) as [Hin | Hin].
  - now rewrite get_order_cached.
  - rewrite get_order_fresh by exact Hin. cbn.
    destruct (active _); set_solver.
Qed.

Lemma get_orders_none_orders s :
  _none_orders s ⊆ _none_orders (snd (get_orders chain s)).
Proof.
  destruct (get_orders_spec chain s) as (s' & E & _ & Hc & _).
  now rewrite E.
Qed.

Lemma position_none_orders pt pa bt ba s :
  _none_orders s ⊆ _none_orders (snd (position chain pt pa bt ba s)).
Proof.
  destruct (get_orders_spec chain s) as (s' & E & _ & Hc & _).
  now rewrite (position_unfold _ _ _ _ _ _ _ _ E).
Qed.

(** No operation takes an id out of the cache. *)
Lemma run_op_none_orders op s :
  _none_orders s ⊆ _none_orders (run_op chain op s).
Proof.
  destruct op; cbn [run_op]; try reflexivity.
  - apply get_order_none_orders.
  - apply get_orders_none_orders.
  - rewrite make_unfold. now destruct (_ && _).
  - rewrite MatchingMarket_make_unfold.
    destruct (_ && _); [| reflexivity].
    destruct pos as [p |]; [now destruct (0 <=? p) |].
    match goal with
    | |- context [position chain ?a ?b ?c ?d s] =>
        pose proof (position_none_orders a b c d s) as H;
        destruct (position chain a b c d s) as [[p | e] s']; exact H
    end.
  - apply position_none_orders.
Qed.

Lemma run_ops_none_orders ops s :
  _none_orders s ⊆ _none_orders (run_ops chain ops s).
Proof.
  revert s. induction ops as [| op r IH]; intros s; [reflexivity |].
  cbn. etransitivity; [apply (run_op_none_orders op) | apply IH].
Qed.

Lemma get_order_None_cached id s s1 :
  get_order chain id s = (Ok None, s1) -> id ∈ _none_orders s1.
Proof.
  destruct (decide (id ∈ _none_orders s)) as [Hin | Hin].
  - rewrite get_order_cached by exact Hin. now intros [= <-].
  - rewrite get_order_fresh by exact Hin. cbn. unfold present_order.
    destruct (active _); [discriminate |].
    intros [= <-]. cbn. set_solver.
Qed.

End Client.

(** * The claims *)

(** C1 (amended).  Whenever at least one active order of the new order's
    pair has a sell-to-buy price not below the new order's, and the orders
    of that pair have a non-zero [buy_amount], [position] returns the id
    of an active order of the same pair whose price is not below the new
    order's and is the least among all such orders. *)
Theorem position_weakest_ahead chain s pt pa bt ba all s' :
  get_orders chain s = (Ok all, s') ->
  0 < value ba ->
  priced pt bt all ->
  (exists o, o ∈ all /\ qualifies pt pa bt ba o) ->
  returns_weakest_ahead chain s pt pa bt ba.
Proof.
  intros Hg Hba Hpriced Hex.
  destruct (position_found chain pt pa bt ba s all s' Hg) as
    (o & Hin & Hpos & Hq & Hmin); [lia | exact Hpriced | exact Hex |].
  destruct (qualifies_price _ _ _ _ _ Hq) as [Hp _].
  exists all, s', o, (price_of o). repeat split; try assumption.
  - apply Hq.
  - apply Hq.
  - apply Hq.
  - intros o' p' Hin' Hq' Hp'.
    destruct (qualifies_price _ _ _ _ _ Hq') as [Hp'' _].
    rewrite Hp'' in Hp'. injection Hp' as <-. now apply Hmin.
Qed.

Lemma position_weakest_ahead_witness :
  returns_weakest_ahead book_chain otc DAI (wad 2) WETH (wad 1).
Proof.
  apply (position_weakest_ahead book_chain otc DAI (wad 2) WETH (wad 1)
           book_orders (snd (get_orders book_chain otc))).
  - vm_compute. reflexivity.
  - vm_compute. reflexivity.
  - intros o Ho _ _. each_book_order Ho ltac:(vm_compute; discriminate).
  - exists (order_of_offer (address otc) 20 (book_offer 2 1)). split.
    + vm_compute. do 1 right. left.
    + split; [reflexivity |]. split; [reflexivity |].
      exists (wad 2), (wad 2). split; [vm_compute; reflexivity |].
      split; [vm_compute; reflexivity |]. vm_compute. discriminate.
Defined.

(** C1, as stated, fails: with the new order priced above every order of
    the book, [position] returns [0], which is the id of no order. *)
Lemma position_weakest_ahead_fails :
  0 < value (wad 1) /\
  ~ returns_weakest_ahead book_chain otc DAI (wad 5) WETH (wad 1).
Proof.
  split; [reflexivity |].
  intros (all & s' & o & p & Hg & Hin & Hpos & _).
  pose proof (get_orders_ids _ _ _ _ Hg o Hin) as [Hid _].
  assert (H0 : fst (position book_chain DAI (wad 5) WETH (wad 1) otc) = Ok 0)
    by (vm_compute; reflexivity).
  rewrite Hpos in H0. cbn in H0. injection H0 as H0. lia.
Qed.

(** C2.  When no active order has the new order's token pair, or when the
    new order's sell-to-buy price is strictly above the price of every
    active order of that pair, [position] returns the neutral hint [0]. *)
Theorem position_neutral_hint chain s pt pa bt ba all s' :
  get_orders chain s = (Ok all, s') ->
  (forall o, o ∈ all -> ~ (pay_token o = pt /\ buy_token o = bt)) \/
  (forall o, o ∈ all -> pay_token o = pt -> buy_token o = bt ->
     exists p q, sell_to_buy_price o = Ok p /\ Wad_truediv pa ba = Ok q /\
                 value p < value q) ->
  position chain pt pa bt ba s = (Ok 0, s').
Proof.
  intros Hg H. rewrite (position_unfold _ _ _ _ _ _ _ _ Hg). f_equal.
  apply position_of_none. intros o Ho.
  destruct H as [H | H]; [now apply position_filter_other, H |].
  unfold position_filter.
  destruct (Address_eq (pay_token o) pt) eqn:E1; [| reflexivity].
  destruct (Address_eq (buy_token o) bt) eqn:E2; [| reflexivity].
  apply Address_eq_true in E1, E2.
  destruct (H o Ho E1 E2) as (p & q & Hp & Hq & Hlt).
  unfold sell_to_buy_price in Hp. rewrite Hp, Hq. cbn.
  unfold Wad_ge. f_equal. apply Z.leb_gt. exact Hlt.
Qed.

Lemma position_neutral_hint_witness :
  position book_chain DAI (wad 5) WETH (wad 1) otc =
    (Ok 0, snd (get_orders book_chain otc)) /\
  position book_chain WETH (wad 1) DAI (wad 1) otc =
    (Ok 0, snd (get_orders book_chain otc)).
Proof.
  split.
  - apply (position_neutral_hint book_chain otc DAI (wad 5) WETH (wad 1)
             book_orders (snd (get_orders book_chain otc))).
    + vm_compute. reflexivity.
    + right. intros o Ho _ _. exists (price_of o), (wad 5).
      each_book_order Ho
        ltac:(split; [vm_compute; reflexivity |]; split; vm_compute; reflexivity).
  - apply (position_neutral_hint book_chain otc WETH (wad 1) DAI (wad 1)
             book_orders (snd (get_orders book_chain otc))).
    + vm_compute. reflexivity.
    + left. intros o Ho [Hp _]. each_book_order Ho ltac:(discriminate Hp).
Defined.

(** C8.  Among the orders ahead of the insertion point that share the
    least price, [position] returns the one with the lowest id: ids come
    out of [get_orders] in ascending order and the sort keeps the order of
    equal keys. *)
Theorem position_tie_lowest_id chain s pt pa bt ba all s' :
  get_orders chain s = (Ok all, s') ->
  0 < value ba ->
  priced pt bt all ->
  (exists o, o ∈ all /\ qualifies pt pa bt ba o) ->
  StronglySorted Z.lt (order_id <$> all) /\
  exists o p,
    o ∈ all /\ position chain pt pa bt ba s = (Ok (order_id o), s') /\
    qualifies pt pa bt ba o /\ sell_to_buy_price o = Ok p /\
    forall o' p', o' ∈ all -> qualifies pt pa bt ba o' ->
      sell_to_buy_price o' = Ok p' ->
      value p <= value p' /\ (value p' = value p -> order_id o <= order_id o').
Proof.
  intros Hg Hba Hpriced Hex.
  split; [exact (get_orders_ascending _ _ _ _ Hg) |].
  destruct (position_found chain pt pa bt ba s all s' Hg) as
    (o & Hin & Hpos & Hq & Hmin); [lia | exact Hpriced | exact Hex |].
  destruct (qualifies_price _ _ _ _ _ Hq) as [Hp _].
  exists o, (price_of o).
  split; [exact Hin |]. split; [exact Hpos |]. split; [exact Hq |].
  split; [exact Hp |].
  intros o' p' Hin' Hq' Hp'.
  destruct (qualifies_price _ _ _ _ _ Hq') as [Hp'' _].
  rewrite Hp'' in Hp'. injection Hp' as <-. now apply Hmin.
Qed.

Lemma position_tie_lowest_id_witness :
  StronglySorted Z.lt (order_id <$> book_orders) /\
  exists o p,
    o ∈ book_orders /\
    position book_chain DAI (wad 2) WETH (wad 1) otc =
      (Ok (order_id o), snd (get_orders book_chain otc)) /\
    qualifies DAI (wad 2) WETH (wad 1) o /\ sell_to_buy_price o = Ok p /\
    forall o' p', o' ∈ book_orders -> qualifies DAI (wad 2) WETH (wad 1) o' ->
      sell_to_buy_price o' = Ok p' ->
      value p <= value p' /\ (value p' = value p -> order_id o <= order_id o').
Proof.
  apply (position_tie_lowest_id book_chain otc DAI (wad 2) WETH (wad 1)
           book_orders (snd (get_orders book_chain otc))).
  - vm_compute. reflexivity.
  - vm_compute. reflexivity.
  - intros o Ho _ _. each_book_order Ho ltac:(vm_compute; discriminate).
  - exists (order_of_offer (address otc) 40 (book_offer 4 2)). split.
    + vm_compute. do 3 right. left.
    + split; [reflexivity |]. split; [reflexivity |].
      exists (wad 2), (wad 2). split; [vm_compute; reflexivity |].
      split; [vm_compute; reflexivity |]. vm_compute. discriminate.
Defined.

(** C3.  With [n] the last order id the ledger reports, [get_orders] calls
    [get_order] for the ids [1] to [n] in turn (a remote [offers] query is
    issued for each of them that is not already cached as absent, so for
    all of them on a fresh instance); every order it returns was reported
    active by the ledger when queried; and the ids of the returned list
    are strictly ascending, hence without duplicates. *)
Theorem get_orders_enumerates chain s :
  let t0 := length (calls s) in
  let n := last_offer_id (chain t0) in
  let q := filter (fun i => i ∉ _none_orders s) (seqZ 1 n) in
  exists all s',
    get_orders chain s = (Ok all, s') /\
    get_orders chain s =
      bind (get_last_order_id chain)
        (fun m => bind (mapM (get_order chain) (seqZ 1 m))
                    (fun rs => ret (omap id rs))) s /\
    calls s' = calls s ++ call_last_offer_id :: (call_offers <$> q) /\
    (_none_orders s = ∅ -> q = seqZ 1 n) /\
    all = queried chain (address s) (S t0) q /\
    (forall o, o ∈ all ->
       1 <= order_id o <= n /\
       exists t,
         calls s' !! t = Some (call_offers (order_id o)) /\
         active (offers (chain t) (order_id o)) = true /\
         o = order_of_offer (address s) (order_id o)
               (offers (chain t) (order_id o))) /\
    StronglySorted Z.lt (order_id <$> all) /\
    NoDup (order_id <$> all).
Proof.
  intros t0 n q.
  destruct (get_orders_spec chain s) as (s' & E & _ & _ & Hl).
  fold t0 in E, Hl. fold n in E, Hl. fold q in E, Hl.
  exists (queried chain (address s) (S t0) q), s'.
  split; [exact E |]. split.
  { unfold get_orders, bind, get_last_order_id, contract_call.
    now rewrite (mapM_fmap (get_order chain) (fun k => k + 1)), seqZ_shift. }
  split; [exact Hl |]. split.
  { intros He. subst q. apply filter_all. intros i _. rewrite He. set_solver. }
  split; [reflexivity |]. split.
  { intros o (k & i & Hk & Ha & ->)%elem_of_queried. cbn [order_id order_of_offer].
    split.
    - assert (Hi : i ∈ q) by (apply list_elem_of_lookup; eauto).
      apply list_elem_of_filter in Hi as [_ Hi]. apply elem_of_seqZ in Hi. lia.
    - exists (S t0 + k)%nat. repeat split; [| exact Ha].
      rewrite Hl, lookup_app_r by (subst t0; lia).
      replace (S t0 + k - length (calls s))%nat with (S k) by (subst t0; lia).
      change ((call_last_offer_id :: (call_offers <$> q)) !! S k)
        with ((call_offers <$> q) !! k).
      now rewrite list_lookup_fmap, Hk. }
  assert (Hs : StronglySorted Z.lt (order_id <$> queried chain (address s) (S t0) q))
    by apply queried_ascending, StronglySorted_filter, StronglySorted_lt_seqZ.
  split; [exact Hs | now apply StronglySorted_lt_NoDup].
Qed.

(** C4.  Once [get_order] has returned absent for an id, every later
    [get_order] for that id, after any operations on the same instance,
    returns absent and leaves the instance as it is: no remote query is
    recorded. *)
Theorem get_order_absent_is_final chain id s s1 ops :
  get_order chain id s = (Ok None, s1) ->
  let s2 := run_ops chain ops s1 in
  get_order chain id s2 = (Ok None, s2) /\
  calls (snd (get_order chain id s2)) = calls s2.
Proof.
  intros H s2. apply get_order_None_cached in H.
  assert (Hin : id ∈ _none_orders s2)
    by (apply (run_ops_none_orders chain ops s1), H).
  rewrite (get_order_cached chain id s2 Hin). split; reflexivity.
Qed.

Lemma get_order_absent_is_final_witness :
  let s2 := run_ops book_chain
              [op_get_orders; op_position DAI (wad 2) WETH (wad 1)]
              (snd (get_order book_chain 7 otc)) in
  get_order book_chain 7 s2 = (Ok None, s2) /\
  calls (snd (get_order book_chain 7 s2)) = calls s2.
Proof.
  apply (get_order_absent_is_final book_chain 7 otc
           (snd (get_order book_chain 7 otc))).
  vm_compute. reflexivity.
Defined.

(** C9.  An id that is in the cache of absent ids stays in it through
    every sequence of operations of the client, and [get_order] returns
    absent for it whatever ledger it would be run against. *)
Theorem none_orders_only_grows chain chain' ops id s :
  id ∈ _none_orders s ->
  let s' := run_ops chain ops s in
  id ∈ _none_orders s' /\ get_order chain' id s' = (Ok None, s').
Proof.
  intros H s'.
  assert (Hin : id ∈ _none_orders s') by (apply (run_ops_none_orders chain ops s), H).
  split; [exact Hin | now apply get_order_cached].
Qed.

Lemma none_orders_only_grows_witness :
  let s' := run_ops book_chain [op_get_orders; op_kill 7]
              (snd (get_order book_chain 7 otc)) in
  7 ∈ _none_orders s' /\ get_order (fun _ => full_book) 7 s' = (Ok None, s').
Proof.
  apply (none_orders_only_grows book_chain (fun _ => full_book)
           [op_get_orders; op_kill 7] 7 (snd (get_order book_chain 7 otc))).
  vm_compute. reflexivity.
Defined.

(** C5.  [make] raises the assertion error as soon as [pay_amount] or
    [buy_amount] is zero, with the client untouched: no remote call, no
    intent, no amount adjusted.  With both amounts positive it returns the
    transaction built from the very amounts given ([MatchingMarket.make]:
    for a hint that is not negative, or for an omitted hint once
    [position] has computed it over a book whose orders of the pair have a
    price). *)
Theorem make_checks_amounts chain s pt pa bt ba :
  (value pa = 0 \/ value ba = 0 ->
     make pt pa bt ba s = (Raise AssertionError, s) /\
     forall pos,
       MatchingMarket_make chain pt pa bt ba pos s = (Raise AssertionError, s)) /\
  (0 < value pa -> 0 < value ba ->
     make pt pa bt ba s =
       (Ok (mkTransact (address s) "make"
              [AAddress (address_of pt); AAddress (address_of bt);
               AInt (value pa); AInt (value ba)]), s) /\
     (forall p, 0 <= p ->
        MatchingMarket_make chain pt pa bt ba (Some p) s =
          (Ok (mkTransact (address s) "offer"
                 [AInt (value pa); AAddress (address_of pt);
                  AInt (value ba); AAddress (address_of bt); AInt p]), s)) /\
     (forall all s', get_orders chain s = (Ok all, s') -> priced pt bt all ->
        exists p,
          position chain pt pa bt ba s = (Ok p, s') /\
          MatchingMarket_make chain pt pa bt ba None s =
            (Ok (mkTransact (address s) "offer"
                   [AInt (value pa); AAddress (address_of pt);
                    AInt (value ba); AAddress (address_of bt); AInt p]), s'))).
Proof.
  split.
  - intros Hz.
    assert (Hb : Wad_gt pa (mkWad 0) && Wad_gt ba (mkWad 0) = false).
    { apply andb_false_iff. unfold Wad_gt. cbn.
      destruct Hz as [-> | ->]; [left | right]; reflexivity. }
    split; [| intros pos].
    + now rewrite make_unfold, Hb.
    + now rewrite MatchingMarket_make_unfold, Hb.
  - intros Hpa Hba.
    assert (Hb : Wad_gt pa (mkWad 0) && Wad_gt ba (mkWad 0) = true)
      by (apply andb_true_iff; split; now apply Wad_gt_zero).
    split; [now rewrite make_unfold, Hb |]. split.
    + intros p Hp. rewrite MatchingMarket_make_unfold, Hb.
      now rewrite (proj2 (Z.leb_le 0 p) Hp).
    + intros all s' Hg Hpriced.
      destruct (position_of_total pt pa bt ba all) as [p Hp];
        [lia | exact Hpriced |].
      exists p. rewrite MatchingMarket_make_unfold, Hb.
      rewrite (position_unfold _ _ _ _ _ _ _ _ Hg), Hp.
      split; [reflexivity |].
      destruct (get_orders_spec chain s) as (s'' & E & Ha & _).
      rewrite E in Hg. injection Hg as _ <-. now rewrite Ha.
Qed.

Lemma make_checks_amounts_witness :
  (make DAI (wad 0) WETH (wad 1) otc = (Raise AssertionError, otc) /\
   MatchingMarket_make book_chain DAI (wad 0) WETH (wad 1) None otc =
     (Raise AssertionError, otc)) /\
  (make DAI (wad 2) WETH (wad 1) otc =
     (Ok (mkTransact (address otc) "make"
            [AAddress "0x6b17"; AAddress "0xc02a";
             AInt (2 * WAD); AInt (1 * WAD)]), otc) /\
   exists p,
     MatchingMarket_make book_chain DAI (wad 2) WETH (wad 1) None otc =
       (Ok (mkTransact (address otc) "offer"
              [AInt (2 * WAD); AAddress "0x6b17";
               AInt (1 * WAD); AAddress "0xc02a"; AInt p]),
        snd (get_orders book_chain otc))).
Proof.
  split.
  - destruct (proj1 (make_checks_amounts book_chain otc DAI (wad 0) WETH (wad 1)))
      as [H1 H2]; [left; reflexivity |].
    split; [exact H1 | exact (H2 None)].
  - destruct (proj2 (make_checks_amounts book_chain otc DAI (wad 2) WETH (wad 1)))
      as (H1 & _ & H3); [reflexivity | reflexivity |].
    split; [exact H1 |].
    destruct (H3 book_orders (snd (get_orders book_chain otc)))
      as (p & _ & Hm).
    + vm_compute. reflexivity.
    + intros o Ho _ _. each_book_order Ho ltac:(vm_compute; discriminate).
    + exists p. exact Hm.
Defined.

(** C10.  [MatchingMarket.make] with a negative hint raises the assertion
    error and builds nothing; with amounts that pass the checks, a hint
    that is not negative goes into the transaction as given, and an
    omitted hint is replaced by what [position] returns for the same
    arguments. *)
Theorem MatchingMarket_make_hint chain s pt pa bt ba :
  (forall p, p < 0 ->
     MatchingMarket_make chain pt pa bt ba (Some p) s = (Raise AssertionError, s)) /\
  (0 < value pa -> 0 < value ba ->
     (forall p, 0 <= p ->
        MatchingMarket_make chain pt pa bt ba (Some p) s =
          (Ok (mkTransact (address s) "offer"
                 [AInt (value pa); AAddress (address_of pt);
                  AInt (value ba); AAddress (address_of bt); AInt p]), s)) /\
     MatchingMarket_make chain pt pa bt ba None s =
       match position chain pt pa bt ba s with
       | (Ok p, s') =>
           (Ok (mkTransact (address s) "offer"
                  [AInt (value pa); AAddress (address_of pt);
                   AInt (value ba); AAddress (address_of bt); AInt p]), s')
       | (Raise e, s') => (Raise e, s')
       end).
Proof.
  split.
  - intros p Hp. rewrite MatchingMarket_make_unfold.
    rewrite (proj2 (Z.leb_gt 0 p) Hp). now destruct (_ && _).
  - intros Hpa Hba.
    assert (Hb : Wad_gt pa (mkWad 0) && Wad_gt ba (mkWad 0) = true)
      by (apply andb_true_iff; split; now apply Wad_gt_zero).
    split.
    + intros p Hp. rewrite MatchingMarket_make_unfold, Hb.
      now rewrite (proj2 (Z.leb_le 0 p) Hp).
    + rewrite MatchingMarket_make_unfold, Hb.
      destruct (get_orders_spec chain s) as (s'' & E & Ha & _).
      rewrite (position_unfold _ _ _ _ _ _ _ _ E).
      destruct (position_of _ _ _ _ _); [now rewrite Ha | reflexivity].
Qed.

Lemma MatchingMarket_make_hint_witness :
  MatchingMarket_make book_chain DAI (wad 2) WETH (wad 1) (Some (-1)) otc =
    (Raise AssertionError, otc) /\
  MatchingMarket_make book_chain DAI (wad 2) WETH (wad 1) (Some 20) otc =
    (Ok (mkTransact (address otc) "offer"
           [AInt (2 * WAD); AAddress "0x6b17";
            AInt (1 * WAD); AAddress "0xc02a"; AInt 20]), otc) /\
  fst (MatchingMarket_make book_chain DAI (wad 2) WETH (wad 1) None otc) =
    Ok (mkTransact (address otc) "offer"
          [AInt (2 * WAD); AAddress "0x6b17";
           AInt (1 * WAD); AAddress "0xc02a"; AInt 20]).
Proof.
  destruct (MatchingMarket_make_hint book_chain otc DAI (wad 2) WETH (wad 1))
    as [Hneg Hpos].
  destruct Hpos as [Hsome Hnone]; [reflexivity | reflexivity |].
  split; [apply Hneg; reflexivity |].
  split; [apply Hsome; discriminate |].
  rewrite Hnone. vm_compute. reflexivity.
Defined.

(** C7.  Two orders compare equal exactly when their market addresses are
    equal and their ids are equal; so orders of different markets are
    unequal even with the same id. *)
Theorem Order_eq_identity o other :
  (Order_eq o other = true <->
     market o = market other /\ order_id o = order_id other) /\
  (market o <> market other -> Order_eq o other = false).
Proof.
  unfold Order_eq. split.
  - rewrite andb_true_iff, Address_eq_true, Z.eqb_eq. reflexivity.
  - intros H. apply Address_eq_false in H. now rewrite H.
Qed.

Lemma Order_eq_identity_witness :
  Order_eq (order_of_offer (mkAddress "0x14fb") 20 (book_offer 2 1))
           (order_of_offer (mkAddress "0x3aa9") 20 (book_offer 2 1)) = false.
Proof.
  apply (proj2 (Order_eq_identity
                  (order_of_offer (mkAddress "0x14fb") 20 (book_offer 2 1))
                  (order_of_offer (mkAddress "0x3aa9") 20 (book_offer 2 1)))).
  vm_compute. discriminate.
Defined.

(** C6 (amended).  For an order with positive [pay_amount] and
    [buy_amount], the fixed-point product of its two prices is defined,
    lies between 0 and 1, and is exactly 1 when both quotients are
    exact. *)
Theorem price_product_at_most_one o :
  0 < value (pay_amount o) ->
  0 < value (buy_amount o) ->
  exists w,
    price_product o = Ok w /\
    0 <= value w <= WAD /\
    ((value (buy_amount o) | value (pay_amount o) * WAD) ->
     (value (pay_amount o) | value (buy_amount o) * WAD) ->
     value w = WAD).
Proof.
  intros Ha Hb. unfold price_product, sell_to_buy_price, buy_to_sell_price.
  rewrite !Wad_truediv_Ok by lia. cbn [result_bind].
  eexists. split; [reflexivity |]. unfold Wad_mul. cbn [value].
  assert (HW : 0 < WAD) by reflexivity.
  generalize dependent WAD. intros w Hw.
  set (a := value (pay_amount o)) in *. set (b := value (buy_amount o)) in *.
  rewrite (Z.quot_div_nonneg (a * w) b), (Z.quot_div_nonneg (b * w) a) by nia.
  rewrite Z.quot_div_nonneg; [| | lia].
  - split; [now apply reciprocal_product_bound |].
    now apply reciprocal_product_exact.
  - apply Z.mul_nonneg_nonneg; apply Z.div_pos; nia.
Qed.

Lemma price_product_at_most_one_witness :
  exists w,
    price_product one_for_three = Ok w /\
    0 <= value w <= WAD /\
    ((value (buy_amount one_for_three) | value (pay_amount one_for_three) * WAD) ->
     (value (pay_amount one_for_three) | value (buy_amount one_for_three) * WAD) ->
     value w = WAD).
Proof.
  apply (price_product_at_most_one one_for_three); reflexivity.
Defined.

(** C6, as stated, fails: one unit for three is a valid order, and the
    product of its prices is one unit short of 1 in the last decimal. *)
Lemma price_product_not_one :
  0 <= value (pay_amount one_for_three) /\
  0 < value (buy_amount one_for_three) /\
  price_product one_for_three = Ok (mkWad 999999999999999999) /\
  price_product one_for_three <> Ok (mkWad WAD).
Proof.
  split; [discriminate |]. split; [reflexivity |].
  split; [vm_compute; reflexivity | vm_compute; discriminate].
Qed.

(** * Further properties of the code *)

(** ** Order identity *)

(** X1.  [Order.__eq__] is an equivalence: reflexive, symmetric and
    transitive. *)
Theorem Order_eq_equivalence :
  (forall o, Order_eq o o = true) /\
  (forall o other, Order_eq o other = Order_eq other o) /\
  (forall o1 o2 o3,
     Order_eq o1 o2 = true -> Order_eq o2 o3 = true -> Order_eq o1 o3 = true).
Proof.
  assert (H : forall o other, Order_eq o other = true <->
                market o = market other /\ order_id o = order_id other).
  { intros o other. unfold Order_eq.
    now rewrite andb_true_iff, Address_eq_true, Z.eqb_eq. }
  split; [| split].
  - intros o. now apply H.
  - intros o other. destruct (Order_eq o other) eqn:E.
    + symmetry. apply H. apply H in E as [-> ->]. auto.
    + destruct (Order_eq other o) eqn:E'; [| reflexivity].
      apply H in E' as [E1 E2]. rewrite <- E. apply H. auto.
  - intros o1 o2 o3 [E1 E2]%H [E3 E4]%H. apply H. split; congruence.
Qed.

(** X2.  Orders that compare equal have the same hash. *)
Theorem Order_hash_respects_eq o other :
  Order_eq o other = true -> Order_hash o = Order_hash other.
Proof.
  unfold Order_eq, Order_hash. intros [_ H]%andb_true_iff.
  now apply Z.eqb_eq.
Qed.

Lemma Order_hash_respects_eq_witness :
  Order_hash (order_of_offer (mkAddress "0x14fb") 20 (book_offer 2 1)) =
  Order_hash (order_of_offer (mkAddress "0x14fb") 20 (book_offer 4 2)).
Proof.
  apply (Order_hash_respects_eq
           (order_of_offer (mkAddress "0x14fb") 20 (book_offer 2 1))
           (order_of_offer (mkAddress "0x14fb") 20 (book_offer 4 2))).
  vm_compute. reflexivity.
Defined.

(** ** What every operation preserves *)

Lemma mapM_state_invariant {A B} (I : SimpleMarket -> Prop) (f : A -> M B)
    (l : list A) :
  (forall x s, I s -> I (snd (f x s))) ->
  forall s, I s -> I (snd (mapM f l s)).
Proof.
  intros Hf. induction l as [| x r IH]; intros s Hs; [exact Hs |].
  cbn [mapM]. unfold bind.
  pose proof (Hf x s Hs) as H1.
  destruct (f x s) as [[y | e] s1]; [| exact H1].
  pose proof (IH s1 H1) as H2.
  destruct (mapM f r s1) as [[ys | e] s2]; exact H2.
Qed.

Section Invariants.

Variable chain : nat -> Ledger.

Lemma get_orders_state s :
  snd (get_orders chain s) =
  snd (mapM (get_order chain)
         (seqZ 1 (last_offer_id (chain (length (calls s)))))
         (record_call call_last_offer_id s)).
Proof.
  unfold get_orders, bind, get_last_order_id, contract_call.
  rewrite (mapM_fmap (get_order chain) (fun k => k + 1)), seqZ_shift.
  destruct (mapM _ _ _) as [[rs | e] s']; reflexivity.
Qed.

Lemma position_state pt pa bt ba s :
  snd (position chain pt pa bt ba s) = snd (get_orders chain s).
Proof.
  destruct (get_orders_spec chain s) as (s' & E & _).
  now rewrite (position_unfold _ _ _ _ _ _ _ _ E), E.
Qed.

Lemma MatchingMarket_make_state pt pa bt ba pos s :
  snd (MatchingMarket_make chain pt pa bt ba pos s) = s \/
  snd (MatchingMarket_make chain pt pa bt ba pos s) = snd (get_orders chain s).
Proof.
  rewrite MatchingMarket_make_unfold.
  destruct (_ && _); [| now left].
  destruct pos as [p |]; [destruct (0 <=? p); now left |].
  right. rewrite <- (position_state pt pa bt ba).
  destruct (position _ _ _ _ _ s) as [[p | e] s']; reflexivity.
Qed.

Variable I : SimpleMarket -> Prop.
Hypothesis I_record_call : forall c s, I s -> I (record_call c s).
Hypothesis I_get_order : forall id s, I s -> I (snd (get_order chain id s)).

Lemma get_orders_invariant s : I s -> I (snd (get_orders chain s)).
Proof.
  intros Hs. rewrite get_orders_state.
  apply mapM_state_invariant; [exact I_get_order | now apply I_record_call].
Qed.

Lemma run_op_invariant op s : I s -> I (run_op chain op s).
Proof.
  intros Hs. destruct op; cbn [run_op].
  - now apply I_record_call.
  - now apply I_get_order.
  - now apply get_orders_invariant.
  - rewrite make_unfold. now destruct (_ && _).
  - exact Hs.
  - exact Hs.
  - exact Hs.
  - now apply I_record_call.
  - exact Hs.
  - now apply I_record_call.
  - exact Hs.
  - exact Hs.
  - match goal with
    | |- context [MatchingMarket_make chain ?a ?b ?c ?d ?e s] =>
        destruct (MatchingMarket_make_state a b c d e s) as [-> | ->]
    end; [exact Hs | now apply get_orders_invariant].
  - rewrite position_state. now apply get_orders_invariant.
Qed.

Lemma run_ops_invariant ops s : I s -> I (run_ops chain ops s).
Proof.
  revert s. induction ops as [| op r IH]; intros s Hs; [exact Hs |].
  cbn. apply IH. now apply run_op_invariant.
Qed.

End Invariants.

Section CacheFacts.

Variable chain : nat -> Ledger.

Lemma cache_justified_record_call c s :
  cache_justified chain s -> cache_justified chain (record_call c s).
Proof.
  intros H id Hid. destruct (H id Hid) as (t & Ht & Ha).
  exists t. split; [| exact Ha]. cbn. now apply lookup_app_l_Some.
Qed.

Lemma cache_justified_get_order id s :
  cache_justified chain s -> cache_justified chain (snd (get_order chain id s)).
Proof.
  intros H. destruct (decide (id ∈ _none_orders s)) as [Hin | Hin].
  - now rewrite get_order_cached.
  - rewrite get_order_fresh by exact Hin. cbn.
    destruct (active (offers (chain (length (calls s))) id)) eqn:Ea.
    + apply (cache_justified_record_call (call_offers id) s H).
    + intros j Hj. cbn in Hj. apply elem_of_union in Hj as [Hj | Hj].
      * apply elem_of_singleton in Hj as ->.
        exists (length (calls s)). split; [| exact Ea].
        cbn. apply list_lookup_middle. reflexivity.
      * destruct (H j Hj) as (t & Ht & Ha). exists t.
        split; [| exact Ha]. cbn. now apply lookup_app_l_Some.
Qed.

Lemma cache_justified_init a : cache_justified chain (SimpleMarket_init a).
Proof. intros id Hid. cbn in Hid. set_solver. Qed.

Lemma address_get_order id s : address (snd (get_order chain id s)) = address s.
Proof.
  destruct (decide (id ∈ _none_orders s)) as [Hin | Hin].
  - now rewrite get_order_cached.
  - now rewrite get_order_fresh.
Qed.

Lemma calls_prefix_get_order id s :
  calls s `prefix_of` calls (snd (get_order chain id s)).
Proof.
  destruct (decide (id ∈ _none_orders s)) as [Hin | Hin].
  - now rewrite get_order_cached.
  - rewrite get_order_fresh by exact Hin. cbn. now apply prefix_app_r.
Qed.

End CacheFacts.

(** ** The order repository *)

(** X3.  [get_order] never raises and never changes the address.  It
    issues no remote call for a cached id and exactly one [offers] call
    otherwise.  It returns an order only when that call reported the
    offer active, and then the order carries the id asked for, the
    client's address and the fields of the tuple, and the cache is left as
    it was; when it returns absent the id is in the cache afterwards and
    nothing else has been added. *)
Theorem get_order_accounting chain id s :
  exists r s',
    get_order chain id s = (Ok r, s') /\
    address s' = address s /\
    calls s' = calls s ++
      (if decide (id ∈ _none_orders s) then [] else [call_offers id]) /\
    (forall o, r = Some o ->
       (id ∉ _none_orders s) /\
       active (offers (chain (length (calls s))) id) = true /\
       o = order_of_offer (address s) id (offers (chain (length (calls s))) id) /\
       _none_orders s' = _none_orders s) /\
    (r = None ->
       id ∈ _none_orders s' /\ _none_orders s' = {[id]} ∪ _none_orders s).
Proof.
  destruct (decide (id ∈ _none_orders s)) as [Hin | Hin].
  - rewrite (get_order_cached chain id s Hin). exists None, s.
    rewrite app_nil_r.
    split; [reflexivity |]. split; [reflexivity |]. split; [reflexivity |].
    split; [discriminate |]. intros _. split; [exact Hin |].
    apply set_eq. intros j. rewrite elem_of_union, elem_of_singleton.
    split; [tauto | intros [-> | ?]; assumption].
  - rewrite (get_order_fresh chain id s Hin). cbn zeta.
    unfold present_order.
    destruct (active (offers (chain (length (calls s))) id)) eqn:Ea.
    + eexists _, _. split; [reflexivity |]. cbn.
      split; [reflexivity |]. split; [reflexivity |].
      split; [| discriminate].
      intros o [= <-]. auto.
    + eexists _, _. split; [reflexivity |]. cbn.
      split; [reflexivity |]. split; [reflexivity |].
      split; [discriminate |]. intros _. split; [| reflexivity].
      apply elem_of_union_l, elem_of_singleton. reflexivity.
Qed.

(** X4.  On an instance created by [__init__], whatever operations have
    run, an id is in the cache only if the ledger reported that offer not
    active in answer to one of the recorded [offers] queries for it. *)
Theorem cache_holds_only_reported_absent chain a ops id :
  let s := run_ops chain ops (SimpleMarket_init a) in
  id ∈ _none_orders s ->
  exists t, calls s !! t = Some (call_offers id) /\
            active (offers (chain t) id) = false.
Proof.
  intros s. revert id. fold (cache_justified chain s). subst s.
  apply (run_ops_invariant chain (cache_justified chain)).
  - apply cache_justified_record_call.
  - apply cache_justified_get_order.
  - apply cache_justified_init.
Qed.

Lemma cache_holds_only_reported_absent_witness :
  let s := run_ops book_chain [op_get_orders] (SimpleMarket_init (mkAddress "0x14fb")) in
  exists t, calls s !! t = Some (call_offers 7) /\
            active (offers (book_chain t) 7) = false.
Proof.
  apply (cache_holds_only_reported_absent book_chain (mkAddress "0x14fb")
           [op_get_orders] 7).
  vm_compute. reflexivity.
Defined.



(** X16.  No operation changes the address of the client, and the
    remote calls already recorded stay as they are: later calls are only
    added after them. *)
Theorem client_address_is_fixed chain ops s :
  address (run_ops chain ops s) = address s /\
  calls s `prefix_of` calls (run_ops chain ops s).
Proof.
  apply (run_ops_invariant chain
           (fun s' => address s' = address s /\ calls s `prefix_of` calls s')).
  - intros c s' [Ha Hp]. split; [exact Ha |]. cbn.
    etransitivity; [exact Hp | now apply prefix_app_r].
  - intros id s' [Ha Hp]. split.
    + now rewrite address_get_order.
    + etransitivity; [exact Hp | apply calls_prefix_get_order].
  - split; reflexivity.
Qed.

Lemma queried_length chain m q :
  forall t0, (length (queried chain m t0 q) <= length q)%nat.
Proof.
  induction q as [| i r IH]; intros t0; [reflexivity |].
  rewrite queried_cons. specialize (IH (S t0)).
  destruct (present_order m i _); cbn; lia.
Qed.

Lemma queried_static l m q :
  forall t0,
    queried (fun _ => l) m t0 q = omap (fun i => present_order m i (offers l i)) q.
Proof.
  induction q as [| i r IH]; intros t0; [reflexivity |].
  rewrite queried_cons, IH. cbn [omap list_omap].
  destruct (present_order m i (offers l i)); reflexivity.
Qed.

Lemma omap_present_uncached l m s (ids : list Z) :
  cache_sound l s ->
  omap (fun i => present_order m i (offers l i))
    (filter (fun i => i ∉ _none_orders s) ids) =
  omap (fun i => present_order m i (offers l i)) ids.
Proof.
  intros Hs. induction ids as [| i r IH]; [reflexivity |].
  rewrite filter_cons. destruct (decide (i ∉ _none_orders s)) as [Hi | Hi].
  - cbn [omap list_omap]. now rewrite IH.
  - apply dec_stable in Hi. cbn [omap list_omap]. rewrite IH.
    unfold present_order at 2. now rewrite (Hs i Hi).
Qed.

Lemma cache_sound_get_order l id s :
  cache_sound l s -> cache_sound l (snd (get_order (fun _ => l) id s)).
Proof.
  intros H. destruct (decide (id ∈ _none_orders s)) as [Hin | Hin].
  - now rewrite get_order_cached.
  - rewrite get_order_fresh by exact Hin. cbn.
    destruct (active (offers l id)) eqn:Ea; [exact H |].
    intros j Hj. cbn in Hj. apply elem_of_union in Hj as [Hj | Hj].
    + apply elem_of_singleton in Hj as ->. exact Ea.
    + now apply H.
Qed.

(** X6.  When the ledger reports a last order id that is not positive,
    [get_orders] returns the empty list after that single remote call: no
    offer is queried and the cache is not touched. *)
Theorem get_orders_no_orders chain s :
  last_offer_id (chain (length (calls s))) <= 0 ->
  get_orders chain s = (Ok [], record_call call_last_offer_id s).
Proof.
  intros Hn. unfold get_orders, bind, get_last_order_id, contract_call.
  now rewrite seqZ_nil.
Qed.

Lemma get_orders_no_orders_witness :
  get_orders (fun _ => mkLedger 0 (fun _ => empty_offer) true true) otc =
    (Ok [], record_call call_last_offer_id otc).
Proof.
  apply (get_orders_no_orders
           (fun _ => mkLedger 0 (fun _ => empty_offer) true true) otc).
  vm_compute. discriminate.
Defined.

(** X7.  With [n] the last order id reported, [get_orders] issues at
    least one and at most [n + 1] remote calls, and every order it returns
    has cost one of them. *)
Theorem get_orders_cost chain s :
  let n := last_offer_id (chain (length (calls s))) in
  exists all s',
    get_orders chain s = (Ok all, s') /\
    (length (calls s) + 1 <= length (calls s'))%nat /\
    (length (calls s') <= length (calls s) + 1 + Z.to_nat n)%nat /\
    (length (calls s) + 1 + length all <= length (calls s'))%nat.
Proof.
  intros n. destruct (get_orders_spec chain s) as (s' & E & _ & _ & Hl).
  fold n in E, Hl. eexists _, s'. split; [exact E |].
  rewrite Hl, length_app. cbn [length]. rewrite length_fmap.
  pose proof (length_filter (fun i => i ∉ _none_orders s) (seqZ 1 n)) as Hf.
  rewrite length_seqZ in Hf.
  pose proof (queried_length chain (address s)
                (filter (fun i => i ∉ _none_orders s) (seqZ 1 n))
                (S (length (calls s)))) as Hq.
  lia.
Qed.

(** X8.  No two entries of one [get_orders] result compare equal. *)
Theorem get_orders_pairwise_distinct chain s all s' (i j : nat) o1 o2 :
  get_orders chain s = (Ok all, s') ->
  all !! i = Some o1 -> all !! j = Some o2 ->
  Order_eq o1 o2 = true ->
  i = j.
Proof.
  intros Hg Hi Hj [_ He%Z.eqb_eq]%andb_true_iff.
  pose proof (StronglySorted_lt_NoDup _ (get_orders_ascending _ _ _ _ Hg)) as Hnd.
  apply (NoDup_lookup _ i j (order_id o1) Hnd).
  - now rewrite list_lookup_fmap, Hi.
  - now rewrite list_lookup_fmap, Hj, He.
Qed.

Lemma get_orders_pairwise_distinct_witness : 1%nat = 1%nat.
Proof.
  apply (get_orders_pairwise_distinct book_chain otc book_orders
           (snd (get_orders book_chain otc)) 1 1
           (order_of_offer (address otc) 20 (book_offer 2 1))
           (order_of_offer (address otc) 20 (book_offer 2 1))).
  - vm_compute. reflexivity.
  - vm_compute. reflexivity.
  - vm_compute. reflexivity.
  - vm_compute. reflexivity.
Defined.

Lemma get_orders_fixed l ops s :
  cache_sound l s ->
  fst (get_orders (fun _ => l) (run_ops (fun _ => l) ops s)) =
    Ok (active_offers l (address s)).
Proof.
  intros Hs.
  assert (H : address (run_ops (fun _ => l) ops s) = address s /\
              cache_sound l (run_ops (fun _ => l) ops s)).
  { apply (run_ops_invariant (fun _ => l)
             (fun s' => address s' = address s /\ cache_sound l s')).
    - intros c s' H. exact H.
    - intros id s' [Ha Hc]. split.
      + now rewrite address_get_order.
      + now apply cache_sound_get_order.
    - split; [reflexivity | exact Hs]. }
  destruct H as [Ha Hc].
  destruct (get_orders_spec (fun _ => l) (run_ops (fun _ => l) ops s))
    as (s' & E & _).
  rewrite E. cbn [fst]. f_equal.
  rewrite queried_static, omap_present_uncached by exact Hc.
  now rewrite Ha.
Qed.

(** X9.  On a ledger that does not change, and from a cache that holds
    only offers this ledger reports not active (an empty cache, say),
    [get_orders] returns precisely the active offers of the slots [1] to
    the last id, in slot order, whatever operations the client has run
    before, and the cache still holds only offers that are not active:
    the cache saves queries without changing the result. *)
Theorem get_orders_on_fixed_ledger l ops s :
  cache_sound l s ->
  fst (get_orders (fun _ => l) (run_ops (fun _ => l) ops s)) =
    Ok (active_offers l (address s)) /\
  cache_sound l (snd (get_orders (fun _ => l) (run_ops (fun _ => l) ops s))).
Proof.
  intros Hs. split; [exact (get_orders_fixed l ops s Hs) |].
  apply (get_orders_invariant (fun _ => l) (cache_sound l)).
  - intros c s' H. exact H.
  - intros id s' H. now apply cache_sound_get_order.
  - apply (run_ops_invariant (fun _ => l) (cache_sound l)).
    + intros c s' H. exact H.
    + intros id s' H. now apply cache_sound_get_order.
    + exact Hs.
Qed.

Lemma get_orders_on_fixed_ledger_witness :
  fst (get_orders book_chain
         (run_ops book_chain [op_get_orders; op_get_order 7] otc)) =
    Ok (active_offers book (address otc)) /\
  cache_sound book
    (snd (get_orders book_chain
            (run_ops book_chain [op_get_orders; op_get_order 7] otc))).
Proof.
  apply (get_orders_on_fixed_ledger book [op_get_orders; op_get_order 7] otc).
  intros id Hid. vm_compute in Hid. discriminate Hid.
Defined.

(** ** The position search *)

Lemma filterR_cases {A} (p : A -> result bool) (l : list A) :
  (exists l', filterR p l = Ok l' /\ forall x, x ∈ l -> exists b, p x = Ok b) \/
  (exists e x, x ∈ l /\ p x = Raise e /\ filterR p l = Raise e).
Proof.
  induction l as [| x r IH].
  - left. exists []. split; [reflexivity |]. intros x Hx. inversion Hx.
  - cbn [filterR]. destruct (p x) as [b | e] eqn:Ex.
    + destruct IH as [(l' & E & Hall) | (e & y & Hy & Ey & E)].
      * left. rewrite E. cbn. eexists. split; [reflexivity |].
        intros z [-> | Hz]%elem_of_cons; eauto.
      * right. exists e, y. rewrite E. cbn.
        split; [now right | auto].
    + right. exists e, x. cbn. split; [left | auto].
Qed.

Lemma filterR_ext {A} (p p' : A -> result bool) (l : list A) :
  (forall x, p x = p' x) -> filterR p l = filterR p' l.
Proof.
  intros H. induction l as [| x r IH]; [reflexivity |].
  cbn [filterR]. now rewrite H, IH.
Qed.

Section PositionFacts.

Variables (pt : Address) (pa : Wad) (bt : Address) (ba : Wad).

Lemma position_filter_Raise o e :
  position_filter pt pa bt ba o = Raise e <->
  e = ArithmeticError /\ pay_token o = pt /\ buy_token o = bt /\
  (value (buy_amount o) = 0 \/ value ba = 0).
Proof.
  unfold position_filter. split.
  - destruct (Address_eq (pay_token o) pt) eqn:E1; [| discriminate].
    destruct (Address_eq (buy_token o) bt) eqn:E2; [| discriminate].
    apply Address_eq_true in E1, E2. unfold Wad_truediv.
    destruct (Z.eqb_spec (value (buy_amount o)) 0) as [Hz | Hz].
    { cbn. intros [= <-]. auto. }
    destruct (Z.eqb_spec (value ba) 0) as [Hz' | Hz'].
    { cbn. intros [= <-]. auto. }
    cbn. discriminate.
  - intros (-> & E1 & E2 & Hz).
    apply Address_eq_true in E1, E2. rewrite E1, E2. unfold Wad_truediv.
    destruct (Z.eqb_spec (value (buy_amount o)) 0) as [Hz1 | Hz1];
      [reflexivity |].
    destruct Hz as [Hz | Hz]; [contradiction |].
    rewrite Hz. reflexivity.
Qed.

(** What [position] can return, and when it raises. *)
Lemma position_of_cases all :
  (position_of pt pa bt ba all = Ok 0 /\
   forall o, o ∈ all -> ~ qualifies pt pa bt ba o) \/
  (exists o, o ∈ all /\ qualifies pt pa bt ba o /\
             position_of pt pa bt ba all = Ok (order_id o)) \/
  (position_of pt pa bt ba all = Raise ArithmeticError /\
   exists o, o ∈ all /\ pay_token o = pt /\ buy_token o = bt /\
             (value (buy_amount o) = 0 \/ value ba = 0)).
Proof.
  unfold position_of.
  destruct (filterR_cases (position_filter pt pa bt ba) all)
    as [(l' & E & Hall) | (e & x & Hx & Ex & E)].
  - rewrite (filterR_filter _ _ Hall) in E |- *. injection E as <-.
    cbn [result_bind]. rewrite mapR_keys.
    2:{ intros o [Ho _]%list_elem_of_filter.
        apply position_filter_true in Ho. now apply qualifies_price in Ho. }
    cbn [result_bind].
    destruct (sorted_by fst _) as [| ko t] eqn:Es.
    + left. split; [reflexivity |]. intros o Ho Hq.
      apply sorted_by_nil_inv, fmap_nil_inv in Es.
      assert (Hin : o ∈ filter (fun o => position_filter pt pa bt ba o = Ok true) all)
        by (apply list_elem_of_filter; split;
            [now apply position_filter_true | exact Ho]).
      rewrite Es in Hin. inversion Hin.
    + right. left.
      apply sorted_by_head in Es as (l1 & l2 & Es & _).
      apply fmap_app_inv in Es as (f1 & rest & -> & E2 & EF).
      symmetry in E2. apply fmap_cons_inv in E2 as (o & f2 & -> & -> & ->).
      assert (Hin : o ∈ filter (fun o => position_filter pt pa bt ba o = Ok true) all)
        by (rewrite EF; apply elem_of_app; right; left).
      apply list_elem_of_filter in Hin as [Hq Hin].
      exists o. split; [exact Hin |]. split; [| reflexivity].
      now apply position_filter_true.
  - right. right. rewrite E. cbn [result_bind].
    apply position_filter_Raise in Ex as (-> & E1 & E2 & Hz).
    split; [reflexivity |]. eauto.
Qed.

End PositionFacts.

Lemma position_hint_range chain pt pa bt ba s p s' :
  position chain pt pa bt ba s = (Ok p, s') ->
  p = 0 \/
  (1 <= p <= last_offer_id (chain (length (calls s))) /\
   exists all o, get_orders chain s = (Ok all, s') /\ o ∈ all /\
                 order_id o = p /\ qualifies pt pa bt ba o).
Proof.
  intros Hp. destruct (get_orders_spec chain s) as (s'' & E & _).
  rewrite (position_unfold _ _ _ _ _ _ _ _ E) in Hp.
  injection Hp as Hp <-.
  destruct (position_of_cases pt pa bt ba (queried chain (address s)
              (S (length (calls s)))
              (filter (fun i => i ∉ _none_orders s)
                 (seqZ 1 (last_offer_id (chain (length (calls s))))))))
    as [[H0 _] | [(o & Ho & Hq & Ho') | [Hr _]]].
  - rewrite H0 in Hp. left. congruence.
  - rewrite Ho' in Hp. injection Hp as <-. right.
    split; [apply (get_orders_ids _ _ _ _ E o Ho) |].
    eexists _, o. eauto.
  - rewrite Hr in Hp. discriminate.
Qed.

Lemma position_of_Raise pt pa bt ba all :
  (position_of pt pa bt ba all = Raise ArithmeticError <->
   exists o, o ∈ all /\ pay_token o = pt /\ buy_token o = bt /\
             (value (buy_amount o) = 0 \/ value ba = 0)) /\
  position_of pt pa bt ba all <> Raise AssertionError.
Proof.
  destruct (position_of_cases pt pa bt ba all)
    as [[H0 _] | [(o & Ho & Hq & Ho') | [Hr Hex]]].
  - rewrite H0. split; [| discriminate]. split; [discriminate |].
    intros (o & Ho & E1 & E2 & Hz). exfalso.
    assert (Ex : position_filter pt pa bt ba o = Raise ArithmeticError)
      by (apply position_filter_Raise; auto).
    unfold position_of in H0.
    destruct (filterR_cases (position_filter pt pa bt ba) all)
      as [(l' & E & Hall) | (e & x & Hx & Ex' & E)].
    + destruct (Hall o Ho) as [b Hb]. congruence.
    + rewrite E in H0. discriminate.
  - rewrite Ho'. split; [| discriminate]. split; [discriminate |].
    intros (o' & Ho'' & E1 & E2 & Hz). exfalso.
    assert (Ex : position_filter pt pa bt ba o' = Raise ArithmeticError)
      by (apply position_filter_Raise; auto).
    unfold position_of in Ho'.
    destruct (filterR_cases (position_filter pt pa bt ba) all)
      as [(l' & E & Hall) | (e & x & Hx & Ex' & E)].
    + destruct (Hall o' Ho'') as [b Hb]. congruence.
    + rewrite E in Ho'. discriminate.
  - rewrite Hr. split; [| discriminate]. split; auto.
Qed.

(** X10.  On a ledger that does not change, the hint [position] computes
    does not depend on what the client has done before: it is the hint
    for the active offers of the ledger. *)
Theorem position_on_fixed_ledger l ops s pt pa bt ba :
  cache_sound l s ->
  fst (position (fun _ => l) pt pa bt ba (run_ops (fun _ => l) ops s)) =
    position_of pt pa bt ba (active_offers l (address s)).
Proof.
  intros Hs. pose proof (get_orders_fixed l ops s Hs) as Hg.
  destruct (get_orders (fun _ => l) (run_ops (fun _ => l) ops s))
    as [[all | e] s'] eqn:E; [| discriminate].
  injection Hg as ->.
  now rewrite (position_unfold _ _ _ _ _ _ _ _ E).
Qed.

Lemma position_on_fixed_ledger_witness :
  fst (position book_chain DAI (wad 2) WETH (wad 1)
         (run_ops book_chain [op_get_orders; op_get_order 7] otc)) =
    position_of DAI (wad 2) WETH (wad 1) (active_offers book (address otc)).
Proof.
  apply (position_on_fixed_ledger book [op_get_orders; op_get_order 7] otc
           DAI (wad 2) WETH (wad 1)).
  intros id Hid. vm_compute in Hid. discriminate Hid.
Defined.

(** X11.  For a new order with positive [buy_amount], over a book whose
    orders of the pair have a price, [position] returns the neutral hint
    [0] exactly when no active order lies ahead of the insertion point. *)
Theorem position_zero_iff chain s pt pa bt ba all s' :
  get_orders chain s = (Ok all, s') ->
  0 < value ba ->
  priced pt bt all ->
  (position chain pt pa bt ba s = (Ok 0, s') <->
   forall o, o ∈ all -> ~ qualifies pt pa bt ba o).
Proof.
  intros Hg Hba Hpriced. rewrite (position_unfold _ _ _ _ _ _ _ _ Hg).
  destruct (position_of_cases pt pa bt ba all)
    as [[H0 Hn] | [(o & Ho & Hq & Ho') | [_ (o & Ho & E1 & E2 & Hz)]]].
  - rewrite H0. tauto.
  - rewrite Ho'. split.
    + intros [= H0]. destruct (get_orders_ids _ _ _ _ Hg o Ho) as [Hid _]. lia.
    + intros Hn. destruct (Hn o Ho Hq).
  - exfalso. destruct Hz as [Hz | Hz]; [| lia].
    exact (Hpriced o Ho E1 E2 Hz).
Qed.

Lemma position_zero_iff_witness :
  position book_chain DAI (wad 5) WETH (wad 1) otc =
    (Ok 0, snd (get_orders book_chain otc)) <->
  forall o, o ∈ book_orders -> ~ qualifies DAI (wad 5) WETH (wad 1) o.
Proof.
  apply (position_zero_iff book_chain otc DAI (wad 5) WETH (wad 1)
           book_orders (snd (get_orders book_chain otc))).
  - vm_compute. reflexivity.
  - vm_compute. reflexivity.
  - intros o Ho _ _. each_book_order Ho ltac:(vm_compute; discriminate).
Defined.

(** X12.  [position] raises the division error exactly when an active
    order of the new order's pair has a zero [buy_amount], or the new
    order's own [buy_amount] is zero while the book holds an order of the
    pair; it never raises an assertion error, whatever the amounts. *)
Theorem position_raises_iff chain s pt pa bt ba all s' :
  get_orders chain s = (Ok all, s') ->
  (fst (position chain pt pa bt ba s) = Raise ArithmeticError <->
   exists o, o ∈ all /\ pay_token o = pt /\ buy_token o = bt /\
             (value (buy_amount o) = 0 \/ value ba = 0)) /\
  fst (position chain pt pa bt ba s) <> Raise AssertionError.
Proof.
  intros Hg. rewrite (position_unfold _ _ _ _ _ _ _ _ Hg). cbn [fst].
  apply position_of_Raise.
Qed.

Lemma position_raises_iff_witness :
  (fst (position book_chain DAI (wad 2) WETH (wad 0) otc) = Raise ArithmeticError <->
   exists o, o ∈ book_orders /\ pay_token o = DAI /\ buy_token o = WETH /\
             (value (buy_amount o) = 0 \/ value (wad 0) = 0)) /\
  fst (position book_chain DAI (wad 2) WETH (wad 0) otc) <> Raise AssertionError.
Proof.
  apply (position_raises_iff book_chain otc DAI (wad 2) WETH (wad 0)
           book_orders (snd (get_orders book_chain otc))).
  vm_compute. reflexivity.
Defined.

(** X13.  [position] depends on the amounts of the new order only
    through their quotient: two new orders of one pair with the same
    sell-to-buy price get the same hint, with the same remote calls. *)
Theorem position_depends_on_price chain s pt pa bt ba pa' ba' :
  Wad_truediv pa ba = Wad_truediv pa' ba' ->
  position chain pt pa bt ba s = position chain pt pa' bt ba' s.
Proof.
  intros H. unfold position, bind.
  destruct (get_orders chain s) as [[all | e] s']; [| reflexivity].
  unfold lift. f_equal. unfold position_of.
  rewrite (filterR_ext (position_filter pt pa bt ba)
             (position_filter pt pa' bt ba')); [reflexivity |].
  intros o. unfold position_filter. now rewrite H.
Qed.

Lemma position_depends_on_price_witness :
  position book_chain DAI (wad 2) WETH (wad 1) otc =
  position book_chain DAI (wad 6) WETH (wad 3) otc.
Proof.
  apply (position_depends_on_price book_chain otc DAI (wad 2) WETH (wad 1)
           (wad 6) (wad 3)).
  vm_compute. reflexivity.
Defined.

(** X14.  A hint returned by [position] is never negative: it is [0], or
    the id, between [1] and the last order id, of an active order that
    lies ahead of the insertion point. *)
Theorem position_hint_is_valid chain pt pa bt ba s p s' :
  position chain pt pa bt ba s = (Ok p, s') ->
  0 <= p /\
  (p = 0 \/
   (1 <= p <= last_offer_id (chain (length (calls s))) /\
    exists all o, get_orders chain s = (Ok all, s') /\ o ∈ all /\
                  order_id o = p /\ qualifies pt pa bt ba o)).
Proof.
  intros Hp. pose proof (position_hint_range _ _ _ _ _ _ _ _ Hp) as H.
  split; [| exact H]. destruct H as [-> | [H _]]; lia.
Qed.

Lemma position_hint_is_valid_witness :
  0 <= 20 /\
  (20 = 0 \/
   (1 <= 20 <= last_offer_id (book_chain (length (calls otc))) /\
    exists all o,
      get_orders book_chain otc = (Ok all, snd (get_orders book_chain otc)) /\
      o ∈ all /\ order_id o = 20 /\ qualifies DAI (wad 2) WETH (wad 1) o)).
Proof.
  apply (position_hint_is_valid book_chain DAI (wad 2) WETH (wad 1) otc 20
           (snd (get_orders book_chain otc))).
  vm_compute. reflexivity.
Defined.

(** ** The command builders *)

(** X15.  With amounts that pass the checks, [MatchingMarket.make]
    without a hint does what a caller does who first calls [position] and
    then [make] with the hint obtained: the same transaction, or the same
    error of [position]. *)
Theorem make_omitted_hint_as_two_steps chain s pt pa bt ba :
  0 < value pa -> 0 < value ba ->
  MatchingMarket_make chain pt pa bt ba None s =
    match position chain pt pa bt ba s with
    | (Ok p, s') => MatchingMarket_make chain pt pa bt ba (Some p) s'
    | (Raise e, s') => (Raise e, s')
    end.
Proof.
  intros Hpa Hba.
  assert (Hb : Wad_gt pa (mkWad 0) && Wad_gt ba (mkWad 0) = true)
    by (apply andb_true_iff; split; now apply Wad_gt_zero).
  rewrite MatchingMarket_make_unfold, Hb.
  destruct (position chain pt pa bt ba s) as [[p | e] s'] eqn:Ep;
    [| reflexivity].
  rewrite MatchingMarket_make_unfold, Hb.
  assert (Hp : 0 <= p)
    by (destruct (position_hint_range _ _ _ _ _ _ _ _ Ep) as [-> | [H _]]; lia).
  now rewrite (proj2 (Z.leb_le 0 p) Hp).
Qed.

Lemma make_omitted_hint_as_two_steps_witness :
  MatchingMarket_make book_chain DAI (wad 2) WETH (wad 1) None otc =
    match position book_chain DAI (wad 2) WETH (wad 1) otc with
    | (Ok p, s') => MatchingMarket_make book_chain DAI (wad 2) WETH (wad 1) (Some p) s'
    | (Raise e, s') => (Raise e, s')
    end.
Proof.
  apply (make_omitted_hint_as_two_steps book_chain otc DAI (wad 2) WETH (wad 1));
    reflexivity.
Defined.

Lemma amounts_check pa ba :
  Wad_gt pa (mkWad 0) && Wad_gt ba (mkWad 0) = true <->
  0 < value pa /\ 0 < value ba.
Proof. unfold Wad_gt. cbn. rewrite andb_true_iff, !Z.ltb_lt. reflexivity. Qed.

Lemma amounts_check_false pa ba :
  Wad_gt pa (mkWad 0) && Wad_gt ba (mkWad 0) = false <->
  value pa <= 0 \/ value ba <= 0.
Proof. unfold Wad_gt. cbn. rewrite andb_false_iff, !Z.ltb_ge. reflexivity. Qed.

(** X17.  [SimpleMarket.make] raises the assertion error exactly when an
    amount is zero or negative; [MatchingMarket.make] with a hint given
    raises it exactly when an amount is zero or negative or the hint is
    negative.  In every other case they return the transaction. *)
Theorem make_raises_iff chain s pt pa bt ba :
  (make pt pa bt ba s = (Raise AssertionError, s) <->
   value pa <= 0 \/ value ba <= 0) /\
  (forall p,
     MatchingMarket_make chain pt pa bt ba (Some p) s = (Raise AssertionError, s) <->
     value pa <= 0 \/ value ba <= 0 \/ p < 0) /\
  ((exists tx, make pt pa bt ba s = (Ok tx, s)) \/
   make pt pa bt ba s = (Raise AssertionError, s)) /\
  (forall p,
     (exists tx, MatchingMarket_make chain pt pa bt ba (Some p) s = (Ok tx, s)) \/
     MatchingMarket_make chain pt pa bt ba (Some p) s = (Raise AssertionError, s)).
Proof.
  split; [| split; [| split]].
  - rewrite make_unfold.
    destruct (Wad_gt pa (mkWad 0) && Wad_gt ba (mkWad 0)) eqn:E.
    + apply amounts_check in E. split; [discriminate | lia].
    + apply amounts_check_false in E. split; [intros _; exact E | reflexivity].
  - intros p. rewrite MatchingMarket_make_unfold.
    destruct (Wad_gt pa (mkWad 0) && Wad_gt ba (mkWad 0)) eqn:E.
    + apply amounts_check in E. destruct (Z.leb_spec 0 p).
      * split; [discriminate | lia].
      * split; [intros _; lia | reflexivity].
    + apply amounts_check_false in E. split; [intros _; lia | reflexivity].
  - rewrite make_unfold. destruct (_ && _); eauto.
  - intros p. rewrite MatchingMarket_make_unfold.
    destruct (_ && _); [| eauto]. destruct (0 <=? p); eauto.
Qed.

(** X18.  [MatchingMarket.make] with a hint given issues no remote call
    and leaves the client as it is; without a hint it issues the remote
    calls of [get_orders], and only once the amounts have passed the
    checks. *)
Theorem make_remote_calls chain s pt pa bt ba :
  (forall p, snd (MatchingMarket_make chain pt pa bt ba (Some p) s) = s) /\
  (0 < value pa -> 0 < value ba ->
   snd (MatchingMarket_make chain pt pa bt ba None s) = snd (get_orders chain s)) /\
  (value pa <= 0 \/ value ba <= 0 ->
   snd (MatchingMarket_make chain pt pa bt ba None s) = s).
Proof.
  split; [| split].
  - intros p. rewrite MatchingMarket_make_unfold.
    destruct (_ && _); [| reflexivity]. now destruct (0 <=? p).
  - intros Hpa Hba. rewrite MatchingMarket_make_unfold.
    assert (Hb : Wad_gt pa (mkWad 0) && Wad_gt ba (mkWad 0) = true)
      by (apply andb_true_iff; split; now apply Wad_gt_zero).
    rewrite Hb, <- (position_state chain pt pa bt ba s).
    destruct (position chain pt pa bt ba s) as [[p | e] s']; reflexivity.
  - intros Hz. rewrite MatchingMarket_make_unfold.
    assert (Hb : Wad_gt pa (mkWad 0) && Wad_gt ba (mkWad 0) = false).
    { apply andb_false_iff. unfold Wad_gt. cbn.
      destruct Hz as [Hz | Hz]; [left | right]; apply Z.ltb_ge; exact Hz. }
    now rewrite Hb.
Qed.

(** ** What [get_orders] leaves in the cache *)

Lemma mapM_get_order_cons_state chain i r s :
  snd (mapM (get_order chain) (i :: r) s) =
  snd (mapM (get_order chain) r (snd (get_order chain i s))).
Proof.
  cbn [mapM]. unfold bind.
  destruct (decide (i ∈ _none_orders s)) as [Hin | Hin].
  - rewrite (get_order_cached chain i s Hin). cbn [snd].
    destruct (mapM (get_order chain) r s) as [[rs | e] s2]; reflexivity.
  - rewrite (get_order_fresh chain i s Hin). cbn zeta. cbn [snd].
    destruct (mapM (get_order chain) r _) as [[rs | e] s2]; reflexivity.
Qed.

Lemma mapM_get_order_uncached chain ids :
  StronglySorted Z.lt ids ->
  forall s,
    filter (fun i => i ∉ _none_orders (snd (mapM (get_order chain) ids s))) ids =
      order_id <$> queried chain (address s) (length (calls s))
                     (filter (fun i => i ∉ _none_orders s) ids) /\
    forall j, j ∉ ids ->
      (j ∈ _none_orders (snd (mapM (get_order chain) ids s)) <->
       j ∈ _none_orders s).
Proof.
  induction 1 as [| i r Hr IH Hi]; intros s.
  - cbn. split; [reflexivity | tauto].
  - assert (Hir : i ∉ r).
    { intros Hin. rewrite Forall_forall in Hi. specialize (Hi i Hin). lia. }
    rewrite mapM_get_order_cons_state.
    destruct (IH (snd (get_order chain i s))) as [IH1 IH2].
    set (s2 := snd (mapM (get_order chain) r (snd (get_order chain i s)))) in *.
    rewrite (filter_cons _ i r).
    rewrite (filter_cons (fun i0 => i0 ∉ _none_orders s) i r).
    destruct (decide (i ∈ _none_orders s)) as [Hin | Hin].
    + rewrite (get_order_cached chain i s Hin) in IH1, IH2. cbn [snd] in *.
      rewrite decide_False by (intros Hn; apply Hn, (IH2 i Hir), Hin).
      rewrite decide_False by tauto.
      split; [exact IH1 |].
      intros j Hj. apply IH2. intros Hjr. apply Hj. now right.
    + rewrite (get_order_fresh chain i s Hin) in IH1, IH2.
      cbn zeta in IH1, IH2. cbn [snd address calls _none_orders] in IH1, IH2.
      set (a := offers (chain (length (calls s))) i) in *.
      rewrite length_app in IH1. cbn [length] in IH1.
      rewrite Nat.add_1_r in IH1.
      rewrite (decide_True _ _ Hin), queried_cons. fold a.
      unfold present_order.
      destruct (active a) eqn:Ea.
      * rewrite decide_True by (rewrite (IH2 i Hir); exact Hin).
        rewrite fmap_cons. cbn [order_id order_of_offer].
        split; [now rewrite IH1 |].
        intros j Hj. apply IH2. intros Hjr. apply Hj. now right.
      * assert (Hq : filter (fun j => j ∉ {[i]} ∪ _none_orders s) r =
                     filter (fun j => j ∉ _none_orders s) r).
        { apply filter_Forall_iff. rewrite Forall_forall in Hi |- *.
          intros j Hj. specialize (Hi j Hj).
          rewrite elem_of_union, elem_of_singleton.
          split; [tauto | intros Hn [-> | Hc]; [lia | tauto]]. }
        rewrite Hq in IH1.
        rewrite decide_False.
        2:{ intros Hn. apply Hn, (IH2 i Hir).
            apply elem_of_union_l, elem_of_singleton. reflexivity. }
        split; [exact IH1 |].
        intros j Hj. rewrite (IH2 j) by (intros Hjr; apply Hj; now right).
        rewrite elem_of_union, elem_of_singleton.
        split; [intros [-> | Hc]; [| exact Hc] | tauto].
        exfalso. apply Hj. left.
Qed.

(** X19.  After [get_orders], every id from [1] to the last order id is
    either the id of a returned order or cached as absent, never both;
    so a [get_orders] that follows, when the ledger still reports the same
    last id, asks the ledger only about the orders returned the first
    time. *)
Theorem get_orders_warms_cache chain s all s' :
  get_orders chain s = (Ok all, s') ->
  let n := last_offer_id (chain (length (calls s))) in
  (forall id, 1 <= id <= n ->
     (id ∈ _none_orders s' <-> id ∉ order_id <$> all)) /\
  (last_offer_id (chain (length (calls s'))) = n ->
   calls (snd (get_orders chain s')) =
     calls s' ++ call_last_offer_id :: (call_offers <$> (order_id <$> all))).
Proof.
  intros Hg n.
  destruct (get_orders_spec chain s) as (s0 & E & _).
  fold n in E. rewrite E in Hg. injection Hg as <- <-.
  pose proof (get_orders_state chain s) as Hst. fold n in Hst.
  rewrite E in Hst. cbn [snd] in Hst.
  destruct (mapM_get_order_uncached chain (seqZ 1 n) (StronglySorted_lt_seqZ 1 n)
              (record_call call_last_offer_id s)) as [Hf _].
  rewrite <- Hst in Hf. cbn in Hf.
  rewrite length_app in Hf. cbn [length] in Hf. rewrite Nat.add_1_r in Hf.
  split.
  - intros id Hid. rewrite <- Hf, list_elem_of_filter, elem_of_seqZ.
    split.
    + intros Hc [Hn _]. exact (Hn Hc).
    + intros Hn. destruct (decide (id ∈ _none_orders s0)) as [Hc | Hc];
        [exact Hc |]. exfalso. apply Hn. split; [exact Hc | lia].
  - intros Hn. destruct (get_orders_spec chain s0) as (s2 & E2 & _ & _ & Hl).
    rewrite E2. cbn [snd]. rewrite Hl, Hn, Hf. reflexivity.
Qed.

Lemma get_orders_warms_cache_witness :
  let n := last_offer_id (book_chain (length (calls otc))) in
  (forall id, 1 <= id <= n ->
     (id ∈ _none_orders (snd (get_orders book_chain otc)) <->
      id ∉ order_id <$> book_orders)) /\
  (last_offer_id (book_chain (length (calls (snd (get_orders book_chain otc))))) = n ->
   calls (snd (get_orders book_chain (snd (get_orders book_chain otc)))) =
     calls (snd (get_orders book_chain otc)) ++
       call_last_offer_id :: (call_offers <$> (order_id <$> book_orders))).
Proof.
  apply (get_orders_warms_cache book_chain otc book_orders
           (snd (get_orders book_chain otc))).
  vm_compute. reflexivity.
Defined.
